(** * compare.py: key-based diff of two tables

    A shallow embedding of [report_diff], [strip] and [diff_pd] from
    [src/compare.py], together with the numpy and pandas operations they
    call, and the properties of the diff that the specification states.

    Modelling choices.
    - A cell is a Python scalar: a [str] (its Unicode code points), an
      [int], [None] or the float [nan] (the two encodings of a missing
      value).  Other floats are outside the model.
    - Cells keep the Python object they hold, as in an object column.
      pandas does so as long as a column holds a text, and holds a column
      of integers exactly as long as they fit [int64]; a column that
      mixes integers with missing values is up-cast to [float64], which
      shows an integer as "30.0" and rounds it beyond 2^53.  The
      predicates [kept_exact] and [exact_ints] mark the inputs on which
      the cells of the model are the cells pandas holds; the statements
      that depend on the text of a rendered cell, or on the exact set of
      rows reported as changed, carry them.
    - A [DataFrame] is its index (one key tuple per row), its column labels
      and its rows of cells.
    - A Python exception is an explicit [Raise] result.
    - For the caller's view, tables are objects in a store and every
      pandas call of [diff_pd] is a step on that store ([diff_pd_obj]). *)

From Stdlib Require Import ZArith Ascii Lia.
From stdpp Require Import base list strings gmap sorting pretty.


(** ** Cell values *)

(** A Python [str] is a sequence of Unicode code points. *)
Abbreviation str := (list N).

(** The [str] of an ASCII literal, character by character. *)
Definition lit (s : string) : str :=
  N_of_ascii <$> String.list_ascii_of_string s.

Inductive value : Type :=
  | VStr (s : str)
  | VInt (z : Z)
  | VNone
  | VNaN.

Global Instance value_eq_dec : EqDecision value.
Proof. solve_decision. Defined.

(** A (possibly composite) key: the tuple of the key columns' values. *)
Abbreviation key := (list value).

(** [pd.isna] on a scalar. *)
Definition isna (v : value) : bool :=
  match v with
  | VNone | VNaN => true
  | _ => false
  end.

(** Python's [==] on two cells; [nan == nan] is [False]. *)
Definition py_eq (x y : value) : bool :=
  match x, y with
  | VStr s, VStr t => bool_decide (s = t)
  | VInt a, VInt b => bool_decide (a = b)
  | VNone, VNone => true
  | _, _ => false
  end.

(** [str(x)], the form an f-string gives a cell. *)
Definition py_str (v : value) : str :=
  match v with
  | VStr s => s
  | VInt z => lit (pretty z)
  | VNone => lit "None"
  | VNaN => lit "nan"
  end.

(** ** [str.strip] *)

(** The code points [str.strip] removes, those Python takes for
    whitespace: below 128, tab to carriage return, the four separators
    28..31 and the blank; above, the next-line control U+0085, the
    no-break space U+00A0, the Ogham space mark U+1680, the spaces
    U+2000..U+200A, the line and paragraph separators U+2028 and U+2029,
    the narrow no-break space U+202F, the medium mathematical space
    U+205F and the ideographic space U+3000. *)
Definition is_space (c : N) : bool :=
  (((9 <=? c) && (c <=? 13)) || ((28 <=? c) && (c <=? 31)) || (c =? 32)
   || (c =? 0x85) || (c =? 0xA0) || (c =? 0x1680)
   || ((0x2000 <=? c) && (c <=? 0x200A))
   || (c =? 0x2028) || (c =? 0x2029) || (c =? 0x202F) || (c =? 0x205F)
   || (c =? 0x3000))%N.

Fixpoint lstrip (l : str) : str :=
  match l with
  | a :: l' => if is_space a then lstrip l' else l
  | [] => []
  end.

Definition rstrip (l : str) : str := rev (lstrip (rev l)).

Definition str_strip (s : str) : str := rstrip (lstrip s).

(** ** The two functions applied cell by cell *)

(** [report_diff]: [x] is the pair (old, new) of one cell. *)
Definition report_diff (x : value * value) : value :=
  if py_eq x.1 x.2 || (isna x.1 && isna x.2)
  then x.1
  else VStr (py_str x.1 ++ lit " ---> " ++ py_str x.2).

(** [strip]: strips a text cell, leaves any other cell alone. *)
Definition strip (x : value) : value :=
  match x with
  | VStr s => VStr (str_strip s)
  | _ => x
  end.

(** ** The order numpy sorts by *)

(** Python orders ints among themselves and strs among themselves (code
    point by code point); a comparison across kinds, or with [None],
    raises [TypeError].  The model extends the order to all cells (ints,
    then strs, then the missing values) and keeps [orderable] below for
    the keys on which Python's own order is defined. *)
Fixpoint str_leb (s t : str) : bool :=
  match s, t with
  | [], _ => true
  | _ :: _, [] => false
  | a :: s', b :: t' => if decide (a = b) then str_leb s' t' else (a <? b)%N
  end.

Definition rank (v : value) : nat :=
  match v with
  | VInt _ => 0
  | VStr _ => 1
  | VNone => 2
  | VNaN => 3
  end.

Definition value_leb (v w : value) : bool :=
  match v, w with
  | VInt a, VInt b => (a <=? b)%Z
  | VStr s, VStr t => str_leb s t
  | _, _ => (rank v <=? rank w)
  end.

(** Tuples compare at the first position where they differ. *)
Fixpoint key_leb (k1 k2 : key) : bool :=
  match k1, k2 with
  | [], _ => true
  | _ :: _, [] => false
  | v :: k1', w :: k2' =>
      if decide (v = w) then key_leb k1' k2' else value_leb v w
  end.

Definition key_le : relation key := λ k1 k2, key_leb k1 k2.

Global Instance key_le_dec : RelDecision key_le.
Proof. intros k1 k2. unfold key_le. apply _. Defined.

(** The keys Python can sort: no missing value, and every tuple of the
    same kinds as the first one. *)
Definition kinds (k : key) : list nat := rank <$> k.

Definition orderable (ks : list key) : Prop :=
  Forall (λ k, Forall (λ v, isna v = false) k) ks ∧
  Forall (λ k, kinds k = kinds (default [] (head ks))) ks.

(** ** numpy set routines *)

Section numpy.
Context {A : Type} `{EqDecision A} (R : relation A) `{!RelDecision R}.

(** [aux[:-1][aux[1:] == aux[:-1]]]: the elements equal to their
    successor. *)
Fixpoint equal_to_next (aux : list A) : list A :=
  match aux with
  | x :: (y :: _) as tl =>
      if decide (x = y) then x :: equal_to_next tl else equal_to_next tl
  | _ => []
  end.

(** The mask of [np.unique]: the first element of each run. *)
Fixpoint first_of_runs (aux : list A) : list A :=
  match aux with
  | x :: (y :: _) as tl =>
      if decide (x = y) then first_of_runs tl else x :: first_of_runs tl
  | _ => aux
  end.

Definition np_sort (ar : list A) : list A := merge_sort R ar.

Definition np_unique (ar : list A) : list A := first_of_runs (np_sort ar).

(** [np.setdiff1d(ar1, ar2)]: both made unique, then the elements of
    the first that are not in the second. *)
Definition setdiff1d (ar1 ar2 : list A) : list A :=
  let ar1 := np_unique ar1 in
  let ar2 := np_unique ar2 in
  filter (λ x, x ∉ ar2) ar1.

(** [np.intersect1d(ar1, ar2, assume_unique=True)]: concatenate, sort,
    keep what equals its successor. *)
Definition intersect1d (ar1 ar2 : list A) : list A :=
  let aux := np_sort (ar1 ++ ar2) in
  equal_to_next aux.

(** [Series.unique]: first occurrences, in order of appearance. *)
Fixpoint pd_unique (l : list A) : list A :=
  match l with
  | [] => []
  | x :: l' => x :: filter (λ y, y ≠ x) (pd_unique l')
  end.

(** [Index.difference]: when [other] is empty, [self] as it is; else
    the unique labels of [self] that are not in [other], sorted.  (When
    the two are equal pandas returns an empty index at once, which is
    what the second case gives.) *)
Definition difference (self other : list A) : list A :=
  match other with
  | [] => self
  | _ :: _ => np_sort (filter (λ x, x ∉ other) (pd_unique self))
  end.
End numpy.

(** ** Results and exceptions *)

Inductive exn : Type :=
  | KeyError.

Inductive result (A : Type) : Type :=
  | Ok (a : A)
  | Raise (e : exn).
Arguments Ok {A} a.
Arguments Raise {A} e.

Definition bind {A B} (m : result A) (f : A → result B) : result B :=
  match m with
  | Ok a => f a
  | Raise e => Raise e
  end.

Notation "'let*' x ':=' m 'in' k" := (bind m (λ x, k))
  (at level 10, x name, m at level 100, k at level 200).

Fixpoint mapM {A B} (f : A → result B) (l : list A) : result (list B) :=
  match l with
  | [] => Ok []
  | x :: l' => let* y := f x in let* ys := mapM f l' in Ok (y :: ys)
  end.

(** ** Data frames *)

(** [idx_col]: one label, or a non-empty list of labels. *)
Inductive idx_col : Type :=
  | Col (c : string)
  | Cols (c : string) (cs : list string).

Definition labels (i : idx_col) : list string :=
  match i with
  | Col c => [c]
  | Cols c cs => c :: cs
  end.

(** A row: its key (index entry) and its cells, laid out along the
    frame's columns. *)
Abbreviation row := (key * list value)%type.

Record DataFrame : Type := mkDataFrame {
  index_names : list string;
  columns : list string;
  rows : list row
}.

Global Instance DataFrame_eq_dec : EqDecision DataFrame.
Proof. solve_decision. Defined.

Definition index (df : DataFrame) : list key := fst <$> rows df.

(** A frame whose index has several levels is a [MultiIndex]. *)
Definition is_MultiIndex (df : DataFrame) : bool :=
  bool_decide (2 ≤ length (index_names df)).

(** [DataFrame.empty]: some axis has length 0. *)
Definition empty (df : DataFrame) : bool :=
  bool_decide (rows df = []) || bool_decide (columns df = []).

(** The cell under label [c] in a row laid out along [cols]; a label the
    row does not have reads as [nan]. *)
Fixpoint get (c : string) (cols : list string) (cells : list value) : value :=
  match cols, cells with
  | c' :: cols', v :: cells' => if decide (c = c') then v else get c cols' cells'
  | _, _ => VNaN
  end.

Definition take (sel cols : list string) (cells : list value) : list value :=
  (λ c, get c cols cells) <$> sel.

(** [df.set_index(idx_col)]: the key columns become the index and leave
    the columns; a label that is not a column raises [KeyError]. *)
Definition set_index (df : DataFrame) (i : idx_col) : result DataFrame :=
  let keys := labels i in
  if decide (Forall (λ c, c ∈ columns df) keys) then
    let rest := filter (λ c, c ∉ keys) (columns df) in
    Ok {| index_names := keys;
          columns := rest;
          rows := (λ r : row, (take keys (columns df) r.2,
                         take rest (columns df) r.2)) <$> rows df |}
  else Raise KeyError.

(** [df.loc[keys]]: for each label in turn, the rows that carry it; a
    label that no row carries raises [KeyError]. *)
Definition loc_rows (df : DataFrame) (keys : list key)
  : result (list row) :=
  let* found :=
    mapM (λ k, match filter (λ r : row, r.1 = k) (rows df) with
               | [] => Raise KeyError
               | rs => Ok rs
               end) keys in
  Ok (concat found).

Definition loc (df : DataFrame) (keys : list key) : result DataFrame :=
  let* rs := loc_rows df keys in
  Ok {| index_names := index_names df; columns := columns df; rows := rs |}.

(** [df.loc[keys, cols]] *)
Definition loc2 (df : DataFrame) (keys : list key) (cols : list string)
  : result DataFrame :=
  let* rs := loc_rows df keys in
  if decide (Forall (λ c, c ∈ columns df) cols) then
    Ok {| index_names := index_names df;
          columns := cols;
          rows := (λ r : row, (r.1, take cols (columns df) r.2)) <$> rs |}
  else Raise KeyError.

(** [df.applymap(f)]: [f] on every cell.  pandas then infers the type
    of each column anew; the cells stay the objects [f] returned in a
    column that is [kept_exact]. *)
Definition applymap (f : value → value) (df : DataFrame) : DataFrame :=
  {| index_names := index_names df;
     columns := columns df;
     rows := (λ r : row, (r.1, f <$> r.2)) <$> rows df |}.

(** [df.reset_index()]: the index levels become the first columns.  The
    new index is left empty: [drop_duplicates] ignores it. *)
Definition reset_index (df : DataFrame) : DataFrame :=
  {| index_names := [];
     columns := index_names df ++ columns df;
     rows := (λ r : row, ([], r.1 ++ r.2)) <$> rows df |}.

(** [pd.concat([a, b], sort=True)] of two frames with the same labels:
    the rows of [a], then those of [b].  ([sort=True] orders the labels;
    rows are matched label by label either way.) *)
Definition concat_rows (a b : DataFrame) : DataFrame :=
  {| index_names := index_names a;
     columns := columns a;
     rows := rows a ++ ((λ r : row, (r.1, take (columns a) (columns b) r.2)) <$> rows b) |}.

(** Two cells fall in one class of pandas' duplicate detection when they
    are the same object or are both missing.  (In a column that pandas
    has up-cast to [float64], integers are told apart as floats: exactly
    so within [exact_ints].) *)
Definition same_value (v w : value) : bool :=
  bool_decide (v = w) || (isna v && isna w).

Fixpoint same_cells (r1 r2 : list value) : bool :=
  match r1, r2 with
  | [], [] => true
  | v :: r1', w :: r2' => same_value v w && same_cells r1' r2'
  | _, _ => false
  end.

(** [df.drop_duplicates(keep=False)]: a row stays when no other row has
    the same cells. *)
Definition drop_duplicates_keep_False (df : DataFrame) : DataFrame :=
  {| index_names := index_names df;
     columns := columns df;
     rows := filter (λ r : row, length (filter (λ r' : row, same_cells r.2 r'.2) (rows df)) ≤ 1)
                    (rows df) |}.

(** [df[idx_col]]: the key columns of each row, as tuples. *)
Definition getitem (df : DataFrame) (i : idx_col) : list key :=
  (λ r : row, take (labels i) (columns df) r.2) <$> rows df.

(** [pd.concat([old, new], axis='columns', keys=['old', 'new'])] followed
    by [swaplevel] and the column-wise [groupby] that applies
    [report_diff] to each (old, new) pair: the frames carry the same
    index and the same labels, and every label yields one merged
    column.  ([report_diff] sees the two cells as the row of one small
    frame holds them: as they are when both columns are
    [kept_exact].) *)
Definition merge_changes (old new : DataFrame) : DataFrame :=
  {| index_names := index_names old;
     columns := columns old;
     rows := zip_with (λ o n : row, (o.1, report_diff <$> zip o.2 n.2))
                      (rows old) (rows new) |}.

(** ** [diff_pd] *)

Definition diff_pd (old_df new_df : DataFrame) (i : idx_col)
  : result (gmap string DataFrame) :=
  (* setting the column name as index *)
  let* old_df := set_index old_df i in
  let* new_df := set_index new_df i in
  (* the added and removed rows *)
  let old_keys := index old_df in
  let new_keys := index new_df in
  let removed_keys :=
    if is_MultiIndex old_df then difference key_le old_keys new_keys
    else setdiff1d key_le old_keys new_keys in
  let added_keys :=
    if is_MultiIndex old_df then difference key_le new_keys old_keys
    else setdiff1d key_le new_keys old_keys in
  (* populate the output data with non empty dataframes *)
  let out_data : gmap string DataFrame := ∅ in
  let* removed := loc old_df removed_keys in
  let out_data :=
    if negb (empty removed) then <["removed" := removed]> out_data
    else out_data in
  let* added := loc new_df added_keys in
  let out_data :=
    if negb (empty added) then <["added" := added]> out_data
    else out_data in
  (* the common data of both dataframes *)
  let common_keys := intersect1d key_le old_keys new_keys in
  let common_columns := intersect1d String.le (columns old_df) (columns new_df) in
  let* new_common := loc2 new_df common_keys common_columns in
  let new_common := applymap strip new_common in
  let* old_common := loc2 old_df common_keys common_columns in
  let old_common := applymap strip old_common in
  (* the changed rows keys, by dropping identical rows *)
  let common_data :=
    concat_rows (reset_index old_common) (reset_index new_common) in
  let changed_keys := getitem (drop_duplicates_keep_False common_data) i in
  let changed_keys :=
    match i with
    | Col _ => pd_unique changed_keys
    | Cols _ _ => pd_unique changed_keys
    end in
  (* combining the changed rows *)
  let* old_changed := loc old_common changed_keys in
  let* new_changed := loc new_common changed_keys in
  let df_changed := merge_changes old_changed new_changed in
  let out_data :=
    if negb (empty df_changed) then <["changed" := df_changed]> out_data
    else out_data in
  Ok out_data.

(** ** Scenario 1 of the specification *)

Definition people_old : DataFrame :=
  {| index_names := []; columns := ["id"; "name"; "age"];
     rows := [ ([VInt 0], [VInt 1; VStr (lit "Alice"); VInt 30]);
               ([VInt 1], [VInt 2; VStr (lit "Bob"); VInt 25]) ] |}.

Definition people_new : DataFrame :=
  {| index_names := []; columns := ["id"; "name"; "age"];
     rows := [ ([VInt 0], [VInt 1; VStr (lit "Alice"); VInt 31]);
               ([VInt 1], [VInt 3; VStr (lit "Carl"); VInt 40]) ] |}.


(** ** Reading the tables *)

(** The key tuples of a table, one per row, in row order. *)
Definition key_values (df : DataFrame) (i : idx_col) : list key :=
  (λ r : row, take (labels i) (columns df) r.2) <$> rows df.

(** The cells of the row that carries key [k], and one cell of it. *)
Definition cells (df : DataFrame) (k : key) : list value :=
  from_option snd [] (head (filter (λ r : row, r.1 = k) (rows df))).

Definition cell (df : DataFrame) (k : key) (c : string) : value :=
  get c (columns df) (cells df k).

(** A valid unique key: the key labels are distinct columns of both
    tables (whose labels are distinct too), no two rows of a table carry
    the same key, and Python can order the keys. *)
Record valid_key (old new : DataFrame) (i : idx_col) : Prop := {
  key_labels_distinct : NoDup (labels i);
  old_columns_distinct : NoDup (columns old);
  new_columns_distinct : NoDup (columns new);
  key_in_old : Forall (λ c, c ∈ columns old) (labels i);
  key_in_new : Forall (λ c, c ∈ columns new) (labels i);
  old_keys_unique : NoDup (key_values old i);
  new_keys_unique : NoDup (key_values new i);
  keys_orderable : orderable (key_values old i ++ key_values new i)
}.

(** The frame that carries, for every key of [ks] in turn, the row
    [f k]. *)
Definition keyed (names cols : list string) (f : key → list value)
    (ks : list key) : DataFrame :=
  {| index_names := names; columns := cols; rows := (λ k, (k, f k)) <$> ks |}.

(** The normalized cells of row [k] under the labels [cols]. *)
Definition normalized (df : DataFrame) (cols : list string) (k : key)
  : list value :=
  strip <$> take cols (columns df) (cells df k).

(** The equality rule of the specification on one cell: the two values
    are identical or both are missing. *)
Definition cell_equal (v w : value) : Prop := v = w ∨ (isna v ∧ isna w).

Global Instance cell_equal_dec v w : Decision (cell_equal v w).
Proof. unfold cell_equal. apply _. Defined.

(** The frame [set_index] builds when the key labels are columns. *)
Definition indexed (df : DataFrame) (i : idx_col) : DataFrame :=
  let rest := filter (λ c, c ∉ labels i) (columns df) in
  {| index_names := labels i;
     columns := rest;
     rows := (λ r : row, (take (labels i) (columns df) r.2,
                          take rest (columns df) r.2)) <$> rows df |}.

(** The parts of the diff of two keyed frames [o] (old) and [n] (new),
    in closed form. *)
Definition removed_keys (o n : DataFrame) : list key :=
  if is_MultiIndex o then difference key_le (index o) (index n)
  else setdiff1d key_le (index o) (index n).

Definition common_keys (o n : DataFrame) : list key :=
  intersect1d key_le (index o) (index n).

Definition common_columns (o n : DataFrame) : list string :=
  intersect1d String.le (columns o) (columns n).

(** Row [k] is changed: some common column fails the equality rule on
    the normalized cells. *)
Definition row_changed (o n : DataFrame) (k : key) : Prop :=
  same_cells (normalized o (common_columns o n) k)
             (normalized n (common_columns o n) k) = false.

Global Instance row_changed_dec o n k : Decision (row_changed o n k).
Proof. unfold row_changed. apply _. Defined.

Definition changed_keys (o n : DataFrame) : list key :=
  filter (row_changed o n) (common_keys o n).

Definition removed_frame (o n : DataFrame) : DataFrame :=
  keyed (index_names o) (columns o) (cells o) (removed_keys o n).

Definition changed_frame (o n : DataFrame) : DataFrame :=
  keyed (index_names o) (common_columns o n)
    (λ k, report_diff <$> zip (normalized o (common_columns o n) k)
                              (normalized n (common_columns o n) k))
    (changed_keys o n).

(** [out_data[name] = df] unless [df.empty]. *)
Definition put (name : string) (df : DataFrame) (out : gmap string DataFrame)
  : gmap string DataFrame :=
  if negb (empty df) then <[name := df]> out else out.

Definition diff_of (o n : DataFrame) : gmap string DataFrame :=
  put "changed" (changed_frame o n)
    (put "added" (removed_frame n o)
       (put "removed" (removed_frame o n) ∅)).

(** What [valid_key] gives on the keyed frames. *)
Record keyed_pair (names : list string) (o n : DataFrame) : Prop := {
  kp_names_old : index_names o = names;
  kp_names_new : index_names n = names;
  kp_names : NoDup names;
  kp_columns_old : NoDup (columns o);
  kp_columns_new : NoDup (columns n);
  kp_fresh : ∀ c, c ∈ columns o → c ∉ names;
  kp_index_old : NoDup (index o);
  kp_index_new : NoDup (index n);
  kp_keys : Forall (λ k, length k = length names ∧
                         Forall (λ v, isna v = false) k) (index o ++ index n)
}.

(** ** Reading the result *)

(** The keys of the table stored under [name]; none when the entry is
    absent. *)
Definition result_keys (out : gmap string DataFrame) (name : string)
  : list key :=
  from_option index [] (out !! name).

(** Row [k] is identical in both keyed frames on the shared columns,
    after normalization and under the equality rule. *)
Definition identical_on_shared (o n : DataFrame) (k : key) : Prop :=
  ∀ c, c ∈ columns o → c ∈ columns n →
       cell_equal (strip (cell o k c)) (strip (cell n k c)).

(** ** Whitespace *)

Definition whitespace (s : str) : Prop := Forall (λ a, is_space a = true) s.


(** ** The inputs on which pandas holds the cells of the model *)

(** The model keeps every cell as the object it is, on every input, so
    no proof below needs the predicates of this section.  A statement
    carries them to say on which inputs it speaks of the code: those on
    which pandas shows and compares the very cells of the model. *)

Definition is_text (v : value) : Prop :=
  match v with VStr _ => True | _ => False end.

Definition is_int64 (v : value) : Prop :=
  match v with VInt z => (- 2 ^ 63 ≤ z < 2 ^ 63)%Z | _ => False end.

Global Instance is_text_dec v : Decision (is_text v).
Proof. destruct v; apply _. Defined.

Global Instance is_int64_dec v : Decision (is_int64 v).
Proof. destruct v; apply _. Defined.

(** Column [c] of the keyed frame [df], over the rows [ks] that are
    compared, comes out of [applymap] with the objects it held: it holds
    a text (pandas then keeps the column as objects), or nothing but
    integers that fit [int64] (pandas then holds them as such).  Any
    other column is re-inferred: integers beside missing values become
    floats. *)
Definition kept_exact (df : DataFrame) (ks : list key) (c : string) : Prop :=
  Exists (λ k, is_text (cell df k c)) ks ∨
  Forall (λ k, is_int64 (cell df k c)) ks.

Global Instance kept_exact_dec df ks c : Decision (kept_exact df ks c).
Proof. unfold kept_exact. apply _. Defined.

(** Every integer of the table is one that [float64] represents exactly,
    so that an up-cast column still tells two different integers
    apart. *)
Definition exact (v : value) : Prop :=
  match v with VInt z => (- 2 ^ 53 ≤ z ≤ 2 ^ 53)%Z | _ => True end.

Global Instance exact_dec v : Decision (exact v).
Proof. destruct v; apply _. Defined.

Definition exact_ints (df : DataFrame) : Prop :=
  Forall (λ r : row, Forall exact r.2) (rows df).

Global Instance exact_ints_dec df : Decision (exact_ints df).
Proof. unfold exact_ints. apply _. Defined.

(** [Index.difference] sorts: the key is a single column (the code then
    calls [np.setdiff1d]), or neither table is without rows. *)
Definition difference_sorts (old new : DataFrame) (i : idx_col) : Prop :=
  length (labels i) ≤ 1 ∨ (rows old ≠ [] ∧ rows new ≠ []).

Global Instance difference_sorts_dec old new i :
  Decision (difference_sorts old new i).
Proof. unfold difference_sorts. apply _. Defined.

(** ** Scenario 3 of the specification *)

Definition stock_old : DataFrame :=
  {| index_names := []; columns := ["sku"; "qty"];
     rows := [ ([VInt 0], [VStr (lit "A-1"); VInt 4]) ] |}.

Definition stock_new : DataFrame :=
  {| index_names := []; columns := ["code"; "qty"];
     rows := [ ([VInt 0], [VStr (lit "A-1"); VInt 5]) ] |}.

(** ** Scenario 2 of the specification, and a row with missing cells *)

(** Row 5 carries trailing blanks in its text cell in the old table only;
    row 6 has no note on either side, under two encodings. *)
Definition staff_old : DataFrame :=
  {| index_names := []; columns := ["id"; "name"; "note"];
     rows := [ ([VInt 0], [VInt 5; VStr (lit "Eve  "); VStr (lit "ok")]);
               ([VInt 1], [VInt 6; VStr (lit "Dan"); VNone]) ] |}.

Definition staff_new : DataFrame :=
  {| index_names := []; columns := ["id"; "name"; "note"];
     rows := [ ([VInt 0], [VInt 5; VStr (lit "Eve"); VStr (lit "ok")]);
               ([VInt 1], [VInt 6; VStr (lit "Dan"); VNaN]) ] |}.

(** ** Two small pairs of tables *)

(** One row on each side, whose text cells differ and carry blanks. *)
Definition spaced_old : DataFrame :=
  {| index_names := []; columns := ["id"; "name"];
     rows := [ ([VInt 0], [VInt 1; VStr (lit " a")]) ] |}.

Definition spaced_new : DataFrame :=
  {| index_names := []; columns := ["id"; "name"];
     rows := [ ([VInt 0], [VInt 1; VStr (lit "b ")]) ] |}.

(** Tables that hold nothing but their key column. *)
Definition bare_old : DataFrame :=
  {| index_names := []; columns := ["id"]; rows := [ ([VInt 0], [VInt 1]) ] |}.

Definition bare_new : DataFrame :=
  {| index_names := []; columns := ["id"]; rows := [ ([VInt 0], [VInt 2]) ] |}.

(** ** The caller's view: tables as objects in a store *)

(** Python passes tables by reference.  The store maps a reference to
    the frame that object holds now; a computation runs on a store and
    gives a value or an exception, and the store it leaves. *)
Abbreviation ref := positive.
Abbreviation store := (gmap positive DataFrame).

Definition M (A : Type) : Type := store → result A * store.

Definition ret {A} (a : A) : M A := λ σ, (Ok a, σ).

Definition lift {A} (r : result A) : M A := λ σ, (r, σ).

Definition obind {A B} (m : M A) (f : A → M B) : M B :=
  λ σ, match m σ with
       | (Ok a, σ') => f a σ'
       | (Raise e, σ') => (Raise e, σ')
       end.

Notation "'let!' x ':=' m 'in' k" := (obind m (λ x, k))
  (at level 10, x name, m at level 100, k at level 200).

(** The frame an object holds.  (A Python name always refers to an
    object; the model raises on a reference the store does not hold.) *)
Definition read (r : ref) : M DataFrame :=
  λ σ, match σ !! r with
       | Some df => (Ok df, σ)
       | None => (Raise KeyError, σ)
       end.

(** A new object. *)
Definition alloc (df : DataFrame) : M ref :=
  λ σ, let r := fresh (dom σ) in (Ok r, <[r := df]> σ).

(** An assignment into an object, as [inplace=True] or [df[c] = ...]
    does it. *)
Definition write (r : ref) (df : DataFrame) : M unit :=
  λ σ, (Ok (), <[r := df]> σ).

(** [self.attribute]: reads the frame. *)
Definition attr {A} (f : DataFrame → A) (self : ref) : M A :=
  let! df := read self in ret (f df).

(** [self.method(...)] for a method that returns a new frame and leaves
    its receiver alone; [method2] for a call that reads two frames. *)
Definition method (f : DataFrame → result DataFrame) (self : ref) : M ref :=
  let! df := read self in
  let! df' := lift (f df) in
  alloc df'.

Definition method2 (f : DataFrame → DataFrame → result DataFrame)
    (a b : ref) : M ref :=
  let! dfa := read a in
  let! dfb := read b in
  let! df' := lift (f dfa dfb) in
  alloc df'.

(** [self.set_index(idx_col)], with [inplace] at its default [False]:
    a new frame. *)
Definition set_index_obj (self : ref) (i : idx_col) : M ref :=
  method (λ df, set_index df i) self.

(** [self.set_index(idx_col, inplace=True)] overwrites the receiver.
    [diff_pd] does not call it; it is here for contrast. *)
Definition set_index_inplace (self : ref) (i : idx_col) : M unit :=
  let! df := read self in
  let! df' := lift (set_index df i) in
  write self df'.

(** [diff_pd] on two references, statement by statement.  The names
    [old_df] and [new_df] are rebound on lines 37 and 38 to the frames
    [set_index] returns; [out_data] maps an entry name to the reference
    of its table. *)
Definition diff_pd_obj (old_df new_df : ref) (i : idx_col)
  : M (gmap string ref) :=
  (* setting the column name as index *)
  let! old_df := set_index_obj old_df i in
  let! new_df := set_index_obj new_df i in
  (* the added and removed rows *)
  let! old_keys := attr index old_df in
  let! new_keys := attr index new_df in
  let! multi := attr is_MultiIndex old_df in
  let removed_keys :=
    if multi then difference key_le old_keys new_keys
    else setdiff1d key_le old_keys new_keys in
  let added_keys :=
    if multi then difference key_le new_keys old_keys
    else setdiff1d key_le new_keys old_keys in
  (* populate the output data with non empty dataframes *)
  let out_data : gmap string ref := ∅ in
  let! removed := method (λ df, loc df removed_keys) old_df in
  let! removed_empty := attr empty removed in
  let out_data :=
    if negb removed_empty then <["removed" := removed]> out_data
    else out_data in
  let! added := method (λ df, loc df added_keys) new_df in
  let! added_empty := attr empty added in
  let out_data :=
    if negb added_empty then <["added" := added]> out_data
    else out_data in
  (* the common data of both dataframes *)
  let common_keys := intersect1d key_le old_keys new_keys in
  let! old_columns := attr columns old_df in
  let! new_columns := attr columns new_df in
  let common_columns := intersect1d String.le old_columns new_columns in
  let! new_common := method (λ df, loc2 df common_keys common_columns) new_df in
  let! new_common := method (λ df, Ok (applymap strip df)) new_common in
  let! old_common := method (λ df, loc2 df common_keys common_columns) old_df in
  let! old_common := method (λ df, Ok (applymap strip df)) old_common in
  (* the changed rows keys, by dropping identical rows *)
  let! old_flat := method (λ df, Ok (reset_index df)) old_common in
  let! new_flat := method (λ df, Ok (reset_index df)) new_common in
  let! common_data := method2 (λ a b, Ok (concat_rows a b)) old_flat new_flat in
  let! kept := method (λ df, Ok (drop_duplicates_keep_False df)) common_data in
  let! changed_keys := attr (λ df, getitem df i) kept in
  let changed_keys :=
    match i with
    | Col _ => pd_unique changed_keys
    | Cols _ _ => pd_unique changed_keys
    end in
  (* combining the changed rows *)
  let! old_changed := method (λ df, loc df changed_keys) old_common in
  let! new_changed := method (λ df, loc df changed_keys) new_common in
  let! df_changed :=
    method2 (λ a b, Ok (merge_changes a b)) old_changed new_changed in
  let! changed_empty := attr empty df_changed in
  let out_data :=
    if negb changed_empty then <["changed" := df_changed]> out_data
    else out_data in
  ret out_data.

(** A computation leaves the objects of the store as they are: every
    reference the store held still holds the same frame afterwards. *)
Definition preserves {A} (m : M A) : Prop :=
  ∀ σ res σ', m σ = (res, σ') → σ ⊆ σ'.

(** The outcome [run] of a call on references is the outcome [pure] of
    [diff_pd] on the frames: the same exception, or references that hold
    the tables of the result, entry by entry. *)
Definition refines (run : result (gmap string ref) * store)
    (pure : result (gmap string DataFrame)) : Prop :=
  match pure with
  | Ok out =>
      ∃ refs, run.1 = Ok refs ∧
              ∀ name, refs !! name ≫= (run.2 !!.) = out !! name
  | Raise e => run.1 = Raise e
  end.

(** A row of a keyed frame after [reset_index]: the key, then the
    cells. *)
Definition flat (f : key → list value) : key → row := λ k, ([], k ++ f k).

(** The number of occurrences of [x] in [l]. *)
Abbreviation count l x := (count_occ (decide_rel (=)) l x).

(** ** The same table under another order of its rows *)

Definition same_rows (df' df : DataFrame) : Prop :=
  index_names df' = index_names df ∧ columns df' = columns df ∧
  rows df' ≡ₚ rows df.

(** Scenario 1 with the rows of each table in the opposite order. *)
Definition people_old_reversed : DataFrame :=
  {| index_names := []; columns := ["id"; "name"; "age"];
     rows := [ ([VInt 0], [VInt 2; VStr (lit "Bob"); VInt 25]);
               ([VInt 1], [VInt 1; VStr (lit "Alice"); VInt 30]) ] |}.

Definition people_new_reversed : DataFrame :=
  {| index_names := []; columns := ["id"; "name"; "age"];
     rows := [ ([VInt 0], [VInt 3; VStr (lit "Carl"); VInt 40]);
               ([VInt 1], [VInt 1; VStr (lit "Alice"); VInt 31]) ] |}.

(** ** [compare_excel] *)

(** Reading a sheet is the caller's I/O: [read_excel path sheet kwargs]
    stands for [pd.read_excel(path, sheet_name=sheet, **kwargs)] and
    gives the table read or the exception raised.  A run of
    [compare_excel] either fails, with the exception of a read or of
    [diff_pd], before anything is written or printed, or leaves its
    effects: the workbook written through [pd.ExcelWriter] (its path and
    one sheet per entry of the diff), if any, and the lines printed.
    Writing the workbook is taken to succeed. *)
Inductive failure (E : Type) : Type :=
  | ReadFailed (e : E)
  | DiffFailed (e : exn).
Arguments ReadFailed {E} e.
Arguments DiffFailed {E} e.

Record effects : Type := mkEffects {
  written : option (string * gmap string DataFrame);
  printed : list string
}.

Section compare_excel.
Context {K E : Type} (read_excel : string → string → K → E + DataFrame).

Definition compare_excel (path1 path2 out_path sheet_name : string)
    (index_col_name : idx_col) (kwargs : K) : failure E + effects :=
  match read_excel path1 sheet_name kwargs with
  | inl e => inl (ReadFailed e)
  | inr old_df =>
      match read_excel path2 sheet_name kwargs with
      | inl e => inl (ReadFailed e)
      | inr new_df =>
          match diff_pd old_df new_df index_col_name with
          | Raise e => inl (DiffFailed e)
          | Ok diff =>
              if decide (diff ≠ ∅) then
                inr {| written := Some (out_path, diff);
                       printed := ["Differences saved in " +:+ out_path] |}
              else
                inr {| written := None;
                       printed := ["No differences spotted"] |}
          end
      end
  end.
End compare_excel.

(** Two workbooks with one sheet each, holding scenario 1. *)
Definition people_books (path sheet : string) (kwargs : unit)
  : unit + DataFrame :=
  if decide (sheet = "Sheet1") then
    if decide (path = "old.xlsx") then inr people_old
    else if decide (path = "new.xlsx") then inr people_new
    else inl ()
  else inl ().

(** Two workbooks with one sheet each, holding scenario 2. *)
Definition staff_books (path sheet : string) (kwargs : unit)
  : unit + DataFrame :=
  if decide (sheet = "Sheet1") then
    if decide (path = "old.xlsx") then inr staff_old
    else if decide (path = "new.xlsx") then inr staff_new
    else inl ()
  else inl ().

(** * Properties *)

(** Closed decidable facts about concrete tables are settled by
    evaluation. *)
Ltac by_computation := apply (bool_decide_unpack _); vm_compute; exact I.

Ltac valid_key_by_computation :=
  split; [by_computation..|split; by_computation].


(** ** The order on keys is a total order *)

Lemma str_leb_total s t : str_leb s t = true ∨ str_leb t s = true.
Proof.
  revert t. induction s as [|a s IH]; intros [|b t]; simpl; auto.
  destruct (decide (a = b)) as [->|Hne].
  - rewrite decide_True by done. apply IH.
  - rewrite decide_False by congruence.
    destruct (N.ltb_spec a b); [by left|right]. apply N.ltb_lt. lia.
Qed.

Lemma str_leb_antisym s t : str_leb s t = true → str_leb t s = true → s = t.
Proof.
  revert t. induction s as [|a s IH]; intros [|b t]; simpl; try done.
  destruct (decide (a = b)) as [->|Hne].
  - rewrite decide_True by done. intros H1 H2. f_equal. by apply IH.
  - rewrite decide_False by congruence.
    intros H1%N.ltb_lt H2%N.ltb_lt. lia.
Qed.

Lemma str_leb_trans s t u :
  str_leb s t = true → str_leb t u = true → str_leb s u = true.
Proof.
  revert t u. induction s as [|a s IH]; intros [|b t] [|c u]; simpl; try done.
  destruct (decide (a = b)) as [->|Hab]; destruct (decide (b = c)) as [->|Hbc].
  - apply IH.
  - done.
  - rewrite decide_False by done. done.
  - intros H1%N.ltb_lt H2%N.ltb_lt.
    rewrite decide_False by lia. apply N.ltb_lt. lia.
Qed.

Lemma value_leb_total v w : value_leb v w = true ∨ value_leb w v = true.
Proof.
  destruct v, w; simpl; try (left; reflexivity); try (right; reflexivity).
  - apply str_leb_total.
  - destruct (Z.leb_spec z z0); [by left|right]. apply Z.leb_le. lia.
Qed.

Lemma value_leb_antisym v w :
  value_leb v w = true → value_leb w v = true → v = w.
Proof.
  destruct v, w; simpl; try discriminate; try reflexivity.
  - intros H1 H2. f_equal. by apply str_leb_antisym.
  - intros H1%Z.leb_le H2%Z.leb_le. f_equal. lia.
Qed.

Lemma value_leb_trans u v w :
  value_leb u v = true → value_leb v w = true → value_leb u w = true.
Proof.
  destruct u, v, w; simpl; try discriminate; try reflexivity.
  - apply str_leb_trans.
  - intros H1%Z.leb_le H2%Z.leb_le. apply Z.leb_le. lia.
Qed.

Global Instance key_le_total : Total key_le.
Proof.
  intros k1. unfold key_le.
  induction k1 as [|v k1 IH]; intros [|w k2]; simpl; auto.
  destruct (decide (v = w)) as [->|Hne].
  - rewrite decide_True by done. apply IH.
  - rewrite decide_False by congruence.
    destruct (value_leb_total v w) as [->| ->]; simpl; auto.
Qed.

Global Instance key_le_antisym : AntiSymm (=) key_le.
Proof.
  intros k1. unfold key_le.
  induction k1 as [|v k1 IH]; intros [|w k2]; simpl; try done.
  destruct (decide (v = w)) as [->|Hne].
  - rewrite decide_True by done. intros H1 H2. f_equal. by apply IH.
  - rewrite decide_False by congruence.
    intros H1%Is_true_true H2%Is_true_true.
    destruct Hne. by apply value_leb_antisym.
Qed.

Global Instance key_le_trans : Transitive key_le.
Proof.
  intros k1. unfold key_le.
  induction k1 as [|u k1 IH]; intros [|v k2] [|w k3]; simpl; try done.
  destruct (decide (u = v)) as [->|Huv]; destruct (decide (v = w)) as [->|Hvw].
  - apply IH.
  - done.
  - rewrite decide_False by done. done.
  - intros H1%Is_true_true H2%Is_true_true.
    destruct (decide (u = w)) as [->|Huw].
    + destruct Huv. by apply value_leb_antisym.
    + apply Is_true_true. by eapply value_leb_trans.
Qed.

(** ** Filtering *)

Section filter_facts.
Context {A : Type} (P : A → Prop) `{!∀ x, Decision (P x)}.

Lemma filter_all (l : list A) : Forall P l → filter P l = l.
Proof.
  induction 1 as [|x l Hx Hl IH]; [done|].
  by rewrite filter_cons_True, IH.
Qed.

Lemma filter_none (l : list A) : Forall (λ x, ¬ P x) l → filter P l = [].
Proof.
  induction 1 as [|x l Hx Hl IH]; [done|].
  by rewrite filter_cons_False.
Qed.

Lemma filter_agree (Q : A → Prop) `{!∀ x, Decision (Q x)} (l : list A) :
  (∀ x, x ∈ l → P x ↔ Q x) → filter P l = filter Q l.
Proof.
  induction l as [|a l IH]; intros HPQ; [done|].
  assert (filter P l = filter Q l) as Hl.
  { apply IH. intros x Hx. apply HPQ. by right. }
  destruct (decide (P a)) as [Ha|Ha].
  - rewrite !filter_cons_True, Hl; [done| |done]. apply HPQ; [by left|done].
  - rewrite !filter_cons_False, Hl; [done| |done].
    intros HQ. apply Ha, HPQ; [by left|done].
Qed.

Lemma filter_fmap {B} (f : B → A) (l : list B) :
  filter P (f <$> l) = f <$> filter (λ x, P (f x)) l.
Proof.
  induction l as [|b l IH]; [done|]. rewrite fmap_cons.
  destruct (decide (P (f b))).
  - by rewrite !filter_cons_True, fmap_cons, IH.
  - by rewrite !filter_cons_False, IH.
Qed.
End filter_facts.

(** ** The numpy set routines compute set difference and intersection *)

Section numpy_facts.
Context {A : Type} `{EqDecision A} (R : relation A) `{!RelDecision R}.
Context `{!Total R, !Transitive R, !AntiSymm (=) R}.

Implicit Types (l ar : list A) (x : A).

Lemma np_sort_Permutation l : np_sort R l ≡ₚ l.
Proof. apply merge_sort_Permutation. Qed.

Lemma np_sort_sorted l : StronglySorted R (np_sort R l).
Proof. by apply StronglySorted_merge_sort. Qed.

Lemma elem_of_np_sort l x : x ∈ np_sort R l ↔ x ∈ l.
Proof. by rewrite np_sort_Permutation. Qed.

Lemma first_of_runs_cons x l :
  first_of_runs (x :: l) = x :: first_of_runs l ∧ head l ≠ Some x ∨
  first_of_runs (x :: l) = first_of_runs l ∧ head l = Some x.
Proof.
  destruct l as [|y l]; simpl; [by left|].
  destruct (decide (x = y)) as [->|]; [right|left]; naive_solver.
Qed.

Lemma elem_of_first_of_runs l x : x ∈ first_of_runs l ↔ x ∈ l.
Proof.
  induction l as [|a l IH]; [done|].
  destruct (first_of_runs_cons a l) as [[-> _] | [-> Hhd]].
  - by rewrite !elem_of_cons, IH.
  - rewrite IH, elem_of_cons. split; [by right|].
    intros [->|]; [|done]. destruct l; simplify_eq/=. by left.
Qed.

Lemma NoDup_first_of_runs l : StronglySorted R l → NoDup (first_of_runs l).
Proof.
  induction 1 as [|a l Hl IH Ha]; [constructor|].
  destruct (first_of_runs_cons a l) as [[-> Hhd] | [-> _]]; [|done].
  apply NoDup_cons. split; [|done].
  rewrite elem_of_first_of_runs. intros Hin.
  destruct l as [|b l]; [by apply elem_of_nil in Hin|].
  apply Forall_cons in Ha as [Hab Ha].
  apply StronglySorted_cons in Hl as [Hb _].
  assert (a ≠ b) as Hne by (intros ->; by destruct Hhd).
  apply elem_of_cons in Hin as [->|Hin]; [done|].
  rewrite Forall_forall in Hb. destruct Hne.
  apply (anti_symm R); [done|]. by apply Hb.
Qed.

Lemma elem_of_np_unique ar x : x ∈ np_unique R ar ↔ x ∈ ar.
Proof. unfold np_unique. by rewrite elem_of_first_of_runs, elem_of_np_sort. Qed.

Lemma NoDup_np_unique ar : NoDup (np_unique R ar).
Proof. apply NoDup_first_of_runs, np_sort_sorted. Qed.

Lemma elem_of_setdiff1d ar1 ar2 x :
  x ∈ setdiff1d R ar1 ar2 ↔ x ∈ ar1 ∧ x ∉ ar2.
Proof.
  unfold setdiff1d.
  rewrite list_elem_of_filter, !elem_of_np_unique. tauto.
Qed.

Lemma NoDup_setdiff1d ar1 ar2 : NoDup (setdiff1d R ar1 ar2).
Proof. apply NoDup_filter, NoDup_np_unique. Qed.

Lemma elem_of_pd_unique l x : x ∈ pd_unique l ↔ x ∈ l.
Proof.
  induction l as [|a l IH]; [done|]. simpl.
  rewrite !elem_of_cons, list_elem_of_filter, IH.
  destruct (decide (x = a)); tauto.
Qed.

Lemma NoDup_pd_unique l : NoDup (pd_unique l).
Proof.
  induction l as [|a l IH]; simpl; [constructor|].
  apply NoDup_cons. split; [|by apply NoDup_filter].
  rewrite list_elem_of_filter. intros [Hne _]. by apply Hne.
Qed.

Lemma pd_unique_NoDup l : NoDup l → pd_unique l = l.
Proof.
  induction 1 as [|a l Ha Hl IH]; [done|]. simpl. rewrite IH. f_equal.
  apply filter_all, Forall_forall. intros y Hy ->. done.
Qed.

Lemma pd_unique_app l1 l2 :
  pd_unique (l1 ++ l2) = pd_unique l1 ++ filter (λ x, x ∉ l1) (pd_unique l2).
Proof.
  induction l1 as [|a l1 IH]; simpl.
  - symmetry. apply filter_all, Forall_forall. intros x _. apply not_elem_of_nil.
  - rewrite IH, filter_app, list_filter_filter. do 2 f_equal.
    apply list_filter_iff. intros x. rewrite not_elem_of_cons. tauto.
Qed.

Lemma pd_unique_twice l : NoDup l → pd_unique (l ++ l) = l.
Proof.
  intros Hl. rewrite pd_unique_app, pd_unique_NoDup by done.
  rewrite filter_none; [by rewrite app_nil_r|].
  apply Forall_forall. tauto.
Qed.

Lemma elem_of_difference self other x :
  x ∈ difference R self other ↔ x ∈ self ∧ x ∉ other.
Proof.
  unfold difference. destruct other as [|y other].
  - split; [|tauto]. intros Hx. split; [done|apply not_elem_of_nil].
  - rewrite elem_of_np_sort, list_elem_of_filter, elem_of_pd_unique. tauto.
Qed.

Lemma NoDup_difference self other :
  NoDup self → NoDup (difference R self other).
Proof.
  intros Hself. unfold difference. destruct other as [|y other]; [done|].
  rewrite np_sort_Permutation. apply NoDup_filter, NoDup_pd_unique.
Qed.

(** An element of a sorted array equals its successor exactly when it
    occurs twice. *)
Lemma count_equal_to_next l x :
  count (equal_to_next l) x ≤ pred (count l x).
Proof.
  induction l as [|a [|b l] IH]; [simpl; lia..|].
  change (equal_to_next (a :: b :: l))
    with (if decide (a = b) then a :: equal_to_next (b :: l)
          else equal_to_next (b :: l)).
  rewrite (count_occ_cons_eq_or_neq' a (b :: l)) || idtac.
  destruct (decide (a = b)) as [->|Hab].
  - destruct (decide (b = x)) as [->|Hbx].
    + rewrite !(count_occ_cons_eq _ _ eq_refl) in *. lia.
    + rewrite !(count_occ_cons_neq _ _ Hbx) in *. lia.
  - destruct (decide (a = x)) as [->|Hax].
    + rewrite (count_occ_cons_eq _ (b :: l) eq_refl). lia.
    + rewrite (count_occ_cons_neq _ (b :: l) Hax). lia.
Qed.

Lemma equal_to_next_twice l x :
  StronglySorted R l → 2 ≤ count l x → x ∈ equal_to_next l.
Proof.
  induction 1 as [|a l Hl IH Ha]; [simpl; lia|].
  intros Hc. destruct l as [|b l].
  { simpl in Hc. destruct (decide_rel eq a x); simpl in Hc; lia. }
  change (equal_to_next (a :: b :: l))
    with (if decide (a = b) then a :: equal_to_next (b :: l)
          else equal_to_next (b :: l)).
  destruct (decide (a = x)) as [->|Hax].
  - rewrite (count_occ_cons_eq _ (b :: l) eq_refl) in Hc.
    assert (x ∈ b :: l) as Hin.
    { apply list_elem_of_In, (count_occ_In (decide_rel (=))). lia. }
    assert (x = b) as <-.
    { apply Forall_cons in Ha as [Hxb _].
      apply StronglySorted_cons in Hl as [Hb _].
      apply elem_of_cons in Hin as [->|Hin]; [done|].
      rewrite Forall_forall in Hb. apply (anti_symm R); [done|]. by apply Hb. }
    rewrite decide_True by done. by left.
  - rewrite (count_occ_cons_neq _ (b :: l) Hax) in Hc.
    destruct (decide (a = b)); [right|]; by apply IH.
Qed.

Lemma count_NoDup l x : NoDup l → count l x ≤ 1.
Proof.
  intros Hl%NoDup_ListNoDup.
  by apply (proj1 (NoDup_count_occ (decide_rel (=)) l)).
Qed.

Lemma count_pos l x : x ∈ l ↔ 0 < count l x.
Proof. rewrite list_elem_of_In. apply (count_occ_In (decide_rel (=))). Qed.

Lemma count_np_sort l x : count (np_sort R l) x = count l x.
Proof. apply Permutation_count_occ, np_sort_Permutation. Qed.

Lemma elem_of_intersect1d ar1 ar2 x :
  NoDup ar1 → NoDup ar2 →
  x ∈ intersect1d R ar1 ar2 ↔ x ∈ ar1 ∧ x ∈ ar2.
Proof.
  intros H1 H2. unfold intersect1d.
  pose proof (count_NoDup ar1 x H1). pose proof (count_NoDup ar2 x H2).
  rewrite !count_pos. split.
  - intros Hin.
    pose proof (count_equal_to_next (np_sort R (ar1 ++ ar2)) x) as Hc.
    rewrite count_np_sort, count_occ_app in Hc. lia.
  - intros [Hx1 Hx2]. apply count_pos, equal_to_next_twice.
    + apply np_sort_sorted.
    + rewrite count_np_sort, count_occ_app. lia.
Qed.

Lemma NoDup_intersect1d ar1 ar2 :
  NoDup ar1 → NoDup ar2 → NoDup (intersect1d R ar1 ar2).
Proof.
  intros H1 H2. apply NoDup_ListNoDup, (NoDup_count_occ (decide_rel (=))). intros x.
  pose proof (count_NoDup ar1 x H1). pose proof (count_NoDup ar2 x H2).
  pose proof (count_equal_to_next (np_sort R (ar1 ++ ar2)) x) as Hc.
  rewrite count_np_sort, count_occ_app in Hc. unfold intersect1d. lia.
Qed.

Lemma intersect1d_comm ar1 ar2 : intersect1d R ar1 ar2 = intersect1d R ar2 ar1.
Proof.
  unfold intersect1d. f_equal.
  apply (StronglySorted_unique R); [apply np_sort_sorted..|].
  rewrite !np_sort_Permutation. apply Permutation_app_comm.
Qed.
End numpy_facts.

(** ** Cells, rows and labels *)

Lemma get_app c cols1 cols2 cells1 cells2 :
  length cells1 = length cols1 →
  get c (cols1 ++ cols2) (cells1 ++ cells2) =
  if decide (c ∈ cols1) then get c cols1 cells1 else get c cols2 cells2.
Proof.
  revert cells1. induction cols1 as [|c' cols1 IH]; intros [|v cells1] Hlen;
    try discriminate Hlen.
  - rewrite decide_False; [done|apply not_elem_of_nil].
  - injection Hlen as Hlen. cbn [app get].
    destruct (decide (c = c')) as [->|Hne].
    + rewrite decide_True; [done|by left].
    + rewrite IH by done. apply decide_ext. rewrite elem_of_cons. tauto.
Qed.

Lemma take_same cols cs :
  NoDup cols → length cs = length cols → take cols cols cs = cs.
Proof.
  unfold take. intros Hnd. revert cs.
  induction Hnd as [|c cols Hc Hnd IH]; intros [|v cs] Hlen;
    try discriminate Hlen; [done|].
  injection Hlen as Hlen. cbn [fmap list_fmap get].
  rewrite decide_True by done. f_equal.
  etrans; [|by apply (IH cs)].
  apply list_fmap_ext. intros _ c' Hc'%list_elem_of_lookup_2.
  cbn [get]. rewrite decide_False; [done|]. by intros ->.
Qed.

Lemma take_app_l names cols k cs :
  NoDup names → length k = length names →
  take names (names ++ cols) (k ++ cs) = k.
Proof.
  intros Hnd Hlen. etrans; [|by apply (take_same names k)].
  apply list_fmap_ext. intros _ c Hc%list_elem_of_lookup_2.
  rewrite get_app by done. by rewrite decide_True.
Qed.

Lemma length_take sel cols cs : length (take sel cols cs) = length sel.
Proof. apply length_fmap. Qed.

Lemma same_value_refl v : same_value v v = true.
Proof. unfold same_value. by rewrite bool_decide_eq_true_2. Qed.

Lemma same_value_sym v w : same_value v w = same_value w v.
Proof.
  unfold same_value. rewrite (andb_comm (isna v)). f_equal.
  apply bool_decide_ext. split; congruence.
Qed.

Lemma same_value_cell_equal v w : same_value v w = true ↔ cell_equal v w.
Proof.
  unfold same_value, cell_equal.
  rewrite orb_true_iff, andb_true_iff, bool_decide_eq_true, !Is_true_true.
  done.
Qed.

Lemma same_value_present v w :
  isna v = false → same_value v w = bool_decide (v = w).
Proof. unfold same_value. intros ->. by rewrite orb_false_r. Qed.

Lemma same_cells_refl r : same_cells r r = true.
Proof. induction r as [|v r IH]; simpl; [done|]. by rewrite same_value_refl. Qed.

Lemma same_cells_sym r1 r2 : same_cells r1 r2 = same_cells r2 r1.
Proof.
  revert r2. induction r1 as [|v r1 IH]; intros [|w r2]; simpl; try done.
  by rewrite same_value_sym, IH.
Qed.

Lemma same_cells_Forall2 r1 r2 :
  same_cells r1 r2 = true ↔ Forall2 cell_equal r1 r2.
Proof.
  revert r2. induction r1 as [|v r1 IH]; intros [|w r2]; simpl.
  - split; [constructor|done].
  - split; [done|inv 1].
  - split; [done|inv 1].
  - rewrite andb_true_iff, same_value_cell_equal, IH, Forall2_cons. done.
Qed.

(** Rows that start with keys of present values are the same only under
    the same key. *)
Lemma same_cells_app k1 k2 r1 r2 :
  Forall (λ v, isna v = false) k1 → length k1 = length k2 →
  same_cells (k1 ++ r1) (k2 ++ r2) = bool_decide (k1 = k2) && same_cells r1 r2.
Proof.
  intros Hk. revert k2.
  induction Hk as [|v k1 Hv Hk IH]; intros [|w k2] ?; simplify_eq/=; [done|].
  rewrite IH, same_value_present by done.
  rewrite andb_assoc. f_equal.
  apply eq_true_iff_eq.
  rewrite andb_true_iff, !bool_decide_eq_true. split; [intros [-> ->]|]; naive_solver.
Qed.

(** ** [loc] on a frame with a unique index *)

Lemma filter_key (l : list row) (r : row) :
  NoDup (l.*1) → r ∈ l → filter (λ r' : row, r'.1 = r.1) l = [r].
Proof.
  induction l as [|a l IH]; [by intros _ ?%elem_of_nil|].
  rewrite fmap_cons, NoDup_cons. intros [Ha Hl] Hin.
  apply elem_of_cons in Hin as [->|Hin].
  - rewrite filter_cons_True by done. f_equal.
    apply filter_none, Forall_forall. intros r' Hr' Heq.
    apply Ha. rewrite <-Heq. by apply list_elem_of_fmap_2.
  - rewrite filter_cons_False; [by apply IH|].
    intros Heq. apply Ha. rewrite Heq. by apply list_elem_of_fmap_2.
Qed.

Lemma cells_row df (r : row) : NoDup (index df) → r ∈ rows df → cells df r.1 = r.2.
Proof. intros Hnd Hr. unfold cells. by rewrite filter_key. Qed.

Lemma rows_keyed df :
  NoDup (index df) → rows df = (λ k, (k, cells df k)) <$> index df.
Proof.
  intros Hnd. unfold index. rewrite <-list_fmap_compose.
  rewrite <-(list_fmap_id (rows df)) at 1.
  apply list_fmap_ext. intros _ r Hr%list_elem_of_lookup_2. simpl.
  rewrite cells_row by done. by destruct r.
Qed.

Lemma index_keyed names cols f ks : index (keyed names cols f ks) = ks.
Proof.
  unfold index, keyed. simpl. rewrite <-list_fmap_compose.
  etrans; [|apply list_fmap_id]. by apply list_fmap_ext.
Qed.

Lemma cells_keyed names cols f ks k :
  NoDup ks → k ∈ ks → cells (keyed names cols f ks) k = f k.
Proof.
  intros Hnd Hk.
  apply (cells_row (keyed names cols f ks) (k, f k)).
  - by rewrite index_keyed.
  - simpl. by apply (list_elem_of_fmap_2 (λ k, (k, f k))).
Qed.

Lemma loc_rows_Ok df ks :
  NoDup (index df) → Forall (λ k, k ∈ index df) ks →
  loc_rows df ks = Ok ((λ k, (k, cells df k)) <$> ks).
Proof.
  intros Hnd Hks. unfold loc_rows.
  assert (mapM (λ k, match filter (λ r : row, r.1 = k) (rows df) with
                     | [] => Raise KeyError
                     | rs => Ok rs
                     end) ks = Ok ((λ k, [(k, cells df k)]) <$> ks)) as ->.
  { induction Hks as [|k ks Hk Hks IH]; [done|]. simpl. rewrite IH.
    apply list_elem_of_fmap in Hk as (r & -> & Hr).
    rewrite filter_key, cells_row by done. by destruct r. }
  cbn [bind]. f_equal. clear. induction ks as [|k ks IH]; [done|].
  rewrite !fmap_cons. cbn [concat]. by rewrite IH.
Qed.

Lemma loc_Ok df ks :
  NoDup (index df) → Forall (λ k, k ∈ index df) ks →
  loc df ks = Ok (keyed (index_names df) (columns df) (cells df) ks).
Proof. intros Hnd Hks. unfold loc. by rewrite loc_rows_Ok. Qed.

Lemma loc2_Ok df ks cols :
  NoDup (index df) → Forall (λ k, k ∈ index df) ks →
  Forall (λ c, c ∈ columns df) cols →
  loc2 df ks cols =
  Ok (keyed (index_names df) cols (λ k, take cols (columns df) (cells df k)) ks).
Proof.
  intros Hnd Hks Hcols. unfold loc2. rewrite loc_rows_Ok by done. simpl.
  rewrite decide_True by done. unfold keyed. do 2 f_equal.
  by rewrite <-list_fmap_compose.
Qed.

Lemma applymap_keyed g names cols f ks :
  applymap g (keyed names cols f ks) = keyed names cols (λ k, g <$> f k) ks.
Proof. unfold applymap, keyed. simpl. f_equal. by rewrite <-list_fmap_compose. Qed.

Lemma merge_changes_keyed names cols fo fn ks :
  merge_changes (keyed names cols fo ks) (keyed names cols fn ks) =
  keyed names cols (λ k, report_diff <$> zip (fo k) (fn k)) ks.
Proof.
  unfold merge_changes, keyed. cbn [rows index_names columns]. f_equal.
  induction ks as [|k ks IH]; [done|].
  rewrite !fmap_cons. cbn [zip_with]. by rewrite IH.
Qed.

(** ** Dropping the rows that occur on both sides *)

Section drop_duplicates.
Context (names cc : list string) (fo fn : key → list value) (ck : list key).
Context (Hck : NoDup ck) (Hlabels : NoDup (names ++ cc)).
Context (Hkeys : Forall (λ k, length k = length names ∧
                              Forall (λ v, isna v = false) k) ck).
Context (Hfo : ∀ k, length (fo k) = length cc).
Context (Hfn : ∀ k, length (fn k) = length cc).

Lemma reset_index_keyed f :
  reset_index (keyed names cc f ck) =
  {| index_names := []; columns := names ++ cc; rows := flat f <$> ck |}.
Proof. unfold reset_index, keyed. simpl. by rewrite <-list_fmap_compose. Qed.

Lemma concat_rows_common :
  concat_rows (reset_index (keyed names cc fo ck))
              (reset_index (keyed names cc fn ck)) =
  {| index_names := []; columns := names ++ cc;
     rows := (flat fo <$> ck) ++ (flat fn <$> ck) |}.
Proof.
  rewrite !reset_index_keyed. unfold concat_rows. simpl. do 2 f_equal.
  rewrite <-list_fmap_compose. apply list_fmap_ext.
  intros _ k Hk%list_elem_of_lookup_2. unfold flat. simpl. f_equal.
  rewrite Forall_forall in Hkeys. destruct (Hkeys k Hk) as [Hlen _].
  apply take_same; [done|]. by rewrite !length_app, Hlen, Hfn.
Qed.

Lemma count_same f k c :
  k ∈ ck →
  length (filter (λ r' : row, same_cells (k ++ c) r'.2) (flat f <$> ck)) =
  if same_cells c (f k) then 1 else 0.
Proof.
  intros Hk. rewrite Forall_forall in Hkeys.
  destruct (Hkeys k Hk) as [Hlen Hpresent].
  assert (∀ ks, NoDup ks → (∀ k', k' ∈ ks → k' ∈ ck) →
    length (filter (λ r' : row, same_cells (k ++ c) r'.2) (flat f <$> ks)) =
    if decide (k ∈ ks) then (if same_cells c (f k) then 1 else 0) else 0)
    as Hcount.
  { induction 1 as [|a ks Ha Hks IH]; intros Hsub; [done|].
    assert (length a = length names) as Hlena.
    { apply Hkeys, Hsub. by left. }
    assert (same_cells (k ++ c) (flat f a).2 =
            bool_decide (k = a) && same_cells c (f a)) as Hsame.
    { unfold flat. cbn [snd]. apply same_cells_app; congruence. }
    specialize (IH (λ k' Hk', Hsub k' (proj2 (elem_of_cons _ _ _) (or_intror Hk')))).
    rewrite fmap_cons.
    destruct (decide (k = a)) as [<-|Hne].
    - rewrite (decide_True (P:=k ∈ k :: ks)) by (by left).
      rewrite (decide_False (P:=k ∈ ks)) in IH by done.
      destruct (same_cells c (f k)) eqn:Hc.
      + rewrite filter_cons_True; [simpl; by rewrite IH|].
        rewrite Hsame, bool_decide_eq_true_2; done.
      + rewrite filter_cons_False; [done|].
        rewrite Hsame, andb_false_r. simpl. tauto.
    - rewrite filter_cons_False.
      + rewrite IH. apply decide_ext. rewrite elem_of_cons. tauto.
      + rewrite Hsame, bool_decide_eq_false_2 by done. simpl. tauto. }
  rewrite Hcount by done. by rewrite decide_True.
Qed.

(** A row stays when its key is changed. *)
Lemma kept_iff f g k :
  k ∈ ck →
  length (filter (λ r' : row, same_cells (k ++ f k) r'.2) (flat f <$> ck)) +
  length (filter (λ r' : row, same_cells (k ++ f k) r'.2) (flat g <$> ck)) ≤ 1
  ↔ same_cells (f k) (g k) = false.
Proof.
  intros Hk. rewrite !count_same by done. rewrite same_cells_refl.
  destruct (same_cells (f k) (g k)); split; (done || lia).
Qed.

Lemma drop_duplicates_common :
  drop_duplicates_keep_False
    (concat_rows (reset_index (keyed names cc fo ck))
                 (reset_index (keyed names cc fn ck))) =
  let chg := filter (λ k, same_cells (fo k) (fn k) = false) ck in
  {| index_names := []; columns := names ++ cc;
     rows := (flat fo <$> chg) ++ (flat fn <$> chg) |}.
Proof.
  rewrite concat_rows_common. unfold drop_duplicates_keep_False. simpl.
  f_equal. rewrite filter_app, !filter_fmap. f_equal; f_equal.
  - apply filter_agree. intros k Hk.
    rewrite filter_app, length_app. exact (kept_iff fo fn k Hk).
  - apply filter_agree. intros k Hk.
    rewrite filter_app, length_app, Nat.add_comm.
    rewrite (same_cells_sym (fo k)). exact (kept_iff fn fo k Hk).
Qed.

Lemma getitem_common i (chg : list key) :
  labels i = names → (∀ k, k ∈ chg → k ∈ ck) →
  getitem {| index_names := []; columns := names ++ cc;
             rows := (flat fo <$> chg) ++ (flat fn <$> chg) |} i =
  chg ++ chg.
Proof.
  intros Hi Hsub. unfold getitem. rewrite Hi. simpl. rewrite fmap_app. f_equal.
  all: rewrite <-list_fmap_compose; etrans; [|apply list_fmap_id].
  all: apply list_fmap_ext; intros _ k Hk%list_elem_of_lookup_2.
  all: unfold flat; simpl; apply take_app_l;
    [by apply NoDup_app in Hlabels as [? _]|].
  all: rewrite Forall_forall in Hkeys; by apply Hkeys, Hsub.
Qed.
End drop_duplicates.

(** ** [diff_pd] in closed form *)

Lemma set_index_Ok df i :
  Forall (λ c, c ∈ columns df) (labels i) → set_index df i = Ok (indexed df i).
Proof. intros Hi. unfold set_index. by rewrite decide_True. Qed.

Lemma set_index_KeyError df i c :
  c ∈ labels i → c ∉ columns df → set_index df i = Raise KeyError.
Proof.
  intros Hc Hmiss. unfold set_index. rewrite decide_False; [done|].
  rewrite Forall_forall. intros Hall. by apply Hmiss, Hall.
Qed.

Lemma index_indexed df i : index (indexed df i) = key_values df i.
Proof. unfold index, indexed, key_values. simpl. by rewrite <-list_fmap_compose. Qed.

Lemma valid_key_keyed_pair old new i :
  valid_key old new i → keyed_pair (labels i) (indexed old i) (indexed new i).
Proof.
  intros [Hlab Hco Hcn Hio Hin Hko Hkn [Hpresent _]].
  split; rewrite ?index_indexed; try done.
  - by apply NoDup_filter.
  - by apply NoDup_filter.
  - intros c [Hc _]%list_elem_of_filter. done.
  - rewrite Forall_forall in Hpresent. apply Forall_forall. intros k Hk.
    split; [|by apply Hpresent].
    apply elem_of_app in Hk as [Hk|Hk];
      apply list_elem_of_fmap in Hk as (r & -> & _); apply length_take.
Qed.

Lemma keyed_ext names cols f g ks :
  (∀ k, k ∈ ks → f k = g k) → keyed names cols f ks = keyed names cols g ks.
Proof.
  intros Hfg. unfold keyed. f_equal. apply list_fmap_ext.
  intros _ k Hk%list_elem_of_lookup_2. by rewrite Hfg.
Qed.

Section keyed_pair_facts.
Context (names : list string) (o n : DataFrame) (Hp : keyed_pair names o n).

Lemma elem_of_removed_keys k :
  k ∈ removed_keys o n ↔ k ∈ index o ∧ k ∉ index n.
Proof.
  unfold removed_keys. destruct (is_MultiIndex o).
  - apply elem_of_difference; apply _.
  - apply elem_of_setdiff1d; apply _.
Qed.

Lemma NoDup_removed_keys : NoDup (removed_keys o n).
Proof.
  unfold removed_keys. destruct (is_MultiIndex o).
  - apply NoDup_difference; (apply _ || apply Hp).
  - apply NoDup_setdiff1d; apply _.
Qed.

Lemma elem_of_common_keys k : k ∈ common_keys o n ↔ k ∈ index o ∧ k ∈ index n.
Proof. apply elem_of_intersect1d; (apply _ || apply Hp). Qed.

Lemma NoDup_common_keys : NoDup (common_keys o n).
Proof. apply NoDup_intersect1d; (apply _ || apply Hp). Qed.

Lemma elem_of_common_columns c :
  c ∈ common_columns o n ↔ c ∈ columns o ∧ c ∈ columns n.
Proof. apply elem_of_intersect1d; (apply _ || apply Hp). Qed.

Lemma NoDup_common_columns : NoDup (common_columns o n).
Proof. apply NoDup_intersect1d; (apply _ || apply Hp). Qed.

Lemma elem_of_changed_keys k :
  k ∈ changed_keys o n ↔ k ∈ index o ∧ k ∈ index n ∧ row_changed o n k.
Proof.
  unfold changed_keys. rewrite list_elem_of_filter, elem_of_common_keys. tauto.
Qed.

Lemma NoDup_changed_keys : NoDup (changed_keys o n).
Proof. apply NoDup_filter, NoDup_common_keys. Qed.

Lemma NoDup_labels : NoDup (names ++ common_columns o n).
Proof.
  apply NoDup_app. split; [apply Hp|]. split; [|apply NoDup_common_columns].
  intros c Hc [Hco _]%elem_of_common_columns.
  by apply (kp_fresh _ _ _ Hp c).
Qed.

Lemma common_keys_present :
  Forall (λ k, length k = length names ∧ Forall (λ v, isna v = false) k)
         (common_keys o n).
Proof.
  apply Forall_forall. intros k [Hk _]%elem_of_common_keys.
  pose proof (kp_keys _ _ _ Hp) as Hkeys. rewrite Forall_forall in Hkeys.
  apply Hkeys, elem_of_app. by left.
Qed.
End keyed_pair_facts.

Lemma keyed_pair_sym names o n :
  keyed_pair names o n → (∀ c, c ∈ columns n → c ∉ names) → keyed_pair names n o.
Proof.
  intros [] Hfresh. split; try done.
  rewrite Forall_forall in *. intros k Hk. apply kp_keys0.
  rewrite elem_of_app in *. tauto.
Qed.

Lemma is_MultiIndex_names o n :
  index_names o = index_names n → is_MultiIndex o = is_MultiIndex n.
Proof. unfold is_MultiIndex. by intros ->. Qed.

Lemma length_normalized df cols k : length (normalized df cols k) = length cols.
Proof. unfold normalized. by rewrite length_fmap, length_take. Qed.

Lemma removed_keys_index o n : Forall (λ k, k ∈ index o) (removed_keys o n).
Proof.
  apply Forall_forall. intros k Hk.
  by apply elem_of_removed_keys in Hk as [? _].
Qed.

Lemma diff_pd_eq old new i :
  valid_key old new i →
  diff_pd old new i = Ok (diff_of (indexed old i) (indexed new i)).
Proof.
  intros Hv. pose proof (valid_key_keyed_pair _ _ _ Hv) as Hp.
  unfold diff_pd.
  rewrite !set_index_Ok by apply Hv. cbn [bind].
  generalize dependent (indexed old i). intros o.
  generalize dependent (indexed new i). intros n Hp.
  cbv zeta.
  fold (removed_keys o n).
  rewrite (is_MultiIndex_names o n)
    by (by rewrite (kp_names_old _ _ _ Hp), (kp_names_new _ _ _ Hp)).
  fold (removed_keys n o).
  fold (common_keys o n). fold (common_columns o n).
  assert (∀ X : list key, match i with Col _ => X | Cols _ _ => X end = X)
    as Hmatch by (by destruct i).
  rewrite (loc_Ok o (removed_keys o n) (kp_index_old _ _ _ Hp) (removed_keys_index o n)).
  cbn [bind].
  rewrite (loc_Ok n (removed_keys n o) (kp_index_new _ _ _ Hp) (removed_keys_index n o)).
  cbn [bind].
  fold (removed_frame o n). fold (removed_frame n o).
  assert (Forall (λ k, k ∈ index o) (common_keys o n)) as Hcko.
  { apply Forall_forall. intros k Hk.
    by apply (elem_of_common_keys _ o n Hp) in Hk as [? _]. }
  assert (Forall (λ k, k ∈ index n) (common_keys o n)) as Hckn.
  { apply Forall_forall. intros k Hk.
    by apply (elem_of_common_keys _ o n Hp) in Hk as [_ ?]. }
  assert (Forall (λ c, c ∈ columns o) (common_columns o n)) as Hcco.
  { apply Forall_forall. intros c Hc.
    by apply (elem_of_common_columns _ o n Hp) in Hc as [? _]. }
  assert (Forall (λ c, c ∈ columns n) (common_columns o n)) as Hccn.
  { apply Forall_forall. intros c Hc.
    by apply (elem_of_common_columns _ o n Hp) in Hc as [_ ?]. }
  rewrite (loc2_Ok n _ _ (kp_index_new _ _ _ Hp) Hckn Hccn). cbn [bind].
  rewrite (loc2_Ok o _ _ (kp_index_old _ _ _ Hp) Hcko Hcco). cbn [bind].
  rewrite !applymap_keyed.
  rewrite !Hmatch. clear Hmatch.
  rewrite (kp_names_old _ _ _ Hp), (kp_names_new _ _ _ Hp).
  fold (normalized o (common_columns o n)). fold (normalized n (common_columns o n)).
  pose proof (NoDup_common_keys _ o n Hp) as Hck.
  pose proof (NoDup_labels _ o n Hp) as Hlab.
  pose proof (common_keys_present _ o n Hp) as Hpres.
  rewrite (drop_duplicates_common (labels i) (common_columns o n)
             (normalized o (common_columns o n))
             (normalized n (common_columns o n)) (common_keys o n) Hck Hlab Hpres
             (λ k, length_normalized n _ k)).
  cbv zeta.
  change (filter _ (common_keys o n)) with (changed_keys o n).
  rewrite (getitem_common (labels i) (common_columns o n) _ _ (common_keys o n)
             Hlab Hpres i (changed_keys o n) eq_refl)
    by (intros k [_ ?]%list_elem_of_filter; done).
  rewrite pd_unique_twice by apply (NoDup_changed_keys _ o n Hp).
  assert (∀ f,
    loc (keyed (labels i) (common_columns o n) f (common_keys o n))
        (changed_keys o n) =
    Ok (keyed (labels i) (common_columns o n) f (changed_keys o n))) as Hloc.
  { intros f. rewrite loc_Ok.
    - f_equal. apply keyed_ext. intros k [_ Hk]%list_elem_of_filter.
      by apply cells_keyed.
    - by rewrite index_keyed.
    - rewrite index_keyed. apply Forall_forall.
      intros k [_ Hk]%list_elem_of_filter. done. }
  rewrite !Hloc. cbn [bind].
  rewrite merge_changes_keyed.
  rewrite <-(kp_names_old _ _ _ Hp).
  fold (changed_frame o n).
  reflexivity.
Qed.

(** ** The entries of the result *)

Lemma lookup_put name' name df (out : gmap string DataFrame) :
  put name df out !! name' =
  if decide (name = name' ∧ empty df = false) then Some df else out !! name'.
Proof.
  unfold put. destruct (empty df); simpl.
  - rewrite decide_False; [done|]. by intros [_ ?].
  - destruct (decide (name = name')) as [->|Hne].
    + rewrite decide_True by done. apply lookup_insert_eq.
    + rewrite decide_False by (by intros [? _]). by apply lookup_insert_ne.
Qed.

Lemma lookup_diff_of_removed o n :
  diff_of o n !! "removed" =
  if empty (removed_frame o n) then None else Some (removed_frame o n).
Proof.
  unfold diff_of. rewrite !lookup_put.
  rewrite !(decide_False (P:=_ = "removed" ∧ _)) by (by intros [? _]);
    try (by intros [? _]).
  destruct (empty (removed_frame o n)).
  - rewrite decide_False; [done|]. by intros [_ ?].
  - by rewrite decide_True.
Qed.

Lemma lookup_diff_of_added o n :
  diff_of o n !! "added" =
  if empty (removed_frame n o) then None else Some (removed_frame n o).
Proof.
  unfold diff_of. rewrite !lookup_put.
  rewrite (decide_False (P:="changed" = "added" ∧ _)) by (by intros [? _]).
  destruct (empty (removed_frame n o)).
  - rewrite decide_False by (by intros [_ ?]).
    rewrite decide_False by (by intros [? _]). done.
  - by rewrite decide_True.
Qed.

Lemma lookup_diff_of_changed o n :
  diff_of o n !! "changed" =
  if empty (changed_frame o n) then None else Some (changed_frame o n).
Proof.
  unfold diff_of. rewrite !lookup_put.
  destruct (empty (changed_frame o n)).
  - rewrite decide_False by (by intros [_ ?]).
    rewrite !decide_False by (by intros [? _]). done.
  - by rewrite decide_True.
Qed.

Lemma lookup_diff_of_other o n name :
  name ≠ "removed" → name ≠ "added" → name ≠ "changed" →
  diff_of o n !! name = None.
Proof.
  intros H1 H2 H3. unfold diff_of. rewrite !lookup_put.
  rewrite !decide_False by (intros [? _]; congruence). done.
Qed.

Lemma empty_keyed names cols f ks :
  empty (keyed names cols f ks) = bool_decide (ks = []) || bool_decide (cols = []).
Proof.
  unfold empty, keyed. simpl. f_equal. apply bool_decide_ext.
  by destruct ks.
Qed.

Lemma index_removed_frame o n : index (removed_frame o n) = removed_keys o n.
Proof. apply index_keyed. Qed.

Lemma index_changed_frame o n : index (changed_frame o n) = changed_keys o n.
Proof. apply index_keyed. Qed.

(** ** A row is changed when a shared column fails the equality rule *)

Lemma same_cells_fmap {A} (f g : A → value) (l : list A) :
  same_cells (f <$> l) (g <$> l) = true ↔ ∀ x, x ∈ l → cell_equal (f x) (g x).
Proof.
  induction l as [|a l IH]; simpl.
  - split; [by intros _ x ?%elem_of_nil|done].
  - rewrite andb_true_iff, same_value_cell_equal, IH. split.
    + intros [Ha Hl] x [->|Hx]%elem_of_cons; auto.
    + intros Hall. split; [apply Hall; by left|].
      intros x Hx. apply Hall. by right.
Qed.

Lemma normalized_cells df cols k :
  normalized df cols k = (λ c, strip (cell df k c)) <$> cols.
Proof. unfold normalized, take, cell. by rewrite <-list_fmap_compose. Qed.

Lemma not_row_changed o n k :
  ¬ row_changed o n k ↔
  ∀ c, c ∈ common_columns o n →
       cell_equal (strip (cell o k c)) (strip (cell n k c)).
Proof.
  unfold row_changed. rewrite not_false_iff_true.
  rewrite !normalized_cells. apply same_cells_fmap.
Qed.

Lemma not_row_changed_identical names o n k :
  keyed_pair names o n → ¬ row_changed o n k ↔ identical_on_shared o n k.
Proof.
  intros Hp. rewrite not_row_changed. unfold identical_on_shared. split.
  - intros Hall c Ho Hn. by apply Hall, (elem_of_common_columns names o n Hp).
  - intros Hall c [Ho Hn]%(elem_of_common_columns names o n Hp). by apply Hall.
Qed.

Lemma changed_keys_columns o n :
  common_columns o n = [] → changed_keys o n = [].
Proof.
  intros Hcc. unfold changed_keys. apply filter_none, Forall_forall.
  intros k _. apply not_row_changed. rewrite Hcc. by intros c ?%elem_of_nil.
Qed.

Lemma empty_changed_frame o n :
  empty (changed_frame o n) = bool_decide (changed_keys o n = []).
Proof.
  unfold changed_frame. rewrite empty_keyed.
  destruct (decide (common_columns o n = [])) as [Hcc|Hcc].
  - rewrite (bool_decide_eq_true_2 (changed_keys o n = []))
      by by apply changed_keys_columns.
    done.
  - rewrite (bool_decide_eq_false_2 (common_columns o n = [])) by done.
    apply orb_false_r.
Qed.

Lemma result_keys_changed o n :
  result_keys (diff_of o n) "changed" = changed_keys o n.
Proof.
  unfold result_keys. rewrite lookup_diff_of_changed, empty_changed_frame.
  case_bool_decide as Hck; simpl; [done|apply index_changed_frame].
Qed.

Lemma result_keys_removed o n :
  columns o ≠ [] → result_keys (diff_of o n) "removed" = removed_keys o n.
Proof.
  intros Hc. unfold result_keys.
  rewrite lookup_diff_of_removed. unfold removed_frame at 1.
  rewrite empty_keyed, (bool_decide_eq_false_2 (columns o = [])), orb_false_r by done.
  case_bool_decide as Hck; simpl; [done|apply index_removed_frame].
Qed.

Lemma result_keys_added o n :
  columns n ≠ [] → result_keys (diff_of o n) "added" = removed_keys n o.
Proof.
  intros Hc. unfold result_keys.
  rewrite lookup_diff_of_added. unfold removed_frame at 1.
  rewrite empty_keyed, (bool_decide_eq_false_2 (columns n = [])), orb_false_r by done.
  case_bool_decide as Hck; simpl; [done|apply index_removed_frame].
Qed.

(** The keys of a stored table are keys of its closed form, with or
    without columns. *)
Lemma result_keys_removed_sub o n k :
  k ∈ result_keys (diff_of o n) "removed" → k ∈ removed_keys o n.
Proof.
  unfold result_keys. rewrite lookup_diff_of_removed.
  destruct (empty (removed_frame o n)); simpl; [by intros ?%elem_of_nil|].
  by rewrite index_removed_frame.
Qed.

Lemma result_keys_added_sub o n k :
  k ∈ result_keys (diff_of o n) "added" → k ∈ removed_keys n o.
Proof.
  unfold result_keys. rewrite lookup_diff_of_added.
  destruct (empty (removed_frame n o)); simpl; [by intros ?%elem_of_nil|].
  by rewrite index_removed_frame.
Qed.

(** ** Concrete tables have valid keys *)

Lemma people_valid_key : valid_key people_old people_new (Col "id").
Proof. valid_key_by_computation. Qed.

Lemma people_old_valid_key : valid_key people_old people_old (Col "id").
Proof. valid_key_by_computation. Qed.

(** * The claims *)

Lemma list_nil_no_elem {A} (l : list A) : (∀ x, x ∉ l) → l = [].
Proof. destruct l as [|a l]; [done|]. intros H. destruct (H a). by left. Qed.

Lemma removed_keys_self o : removed_keys o o = [].
Proof.
  apply list_nil_no_elem. intros k [Hin Hout]%elem_of_removed_keys. done.
Qed.

Lemma changed_keys_self o : changed_keys o o = [].
Proof.
  unfold changed_keys. apply filter_none, Forall_forall. intros k _.
  unfold row_changed. by rewrite same_cells_refl.
Qed.

Lemma put_empty name df (out : gmap string DataFrame) :
  rows df = [] → put name df out = out.
Proof. intros Hr. unfold put, empty. by rewrite Hr. Qed.

(** C3. Idempotence of identical inputs: for a table [T] with a valid
    unique key, [diff_pd T T key] returns the empty mapping, so neither
    "removed", "added" nor "changed" is present. *)
Theorem C3_identical_inputs_empty (T : DataFrame) (i : idx_col) :
  valid_key T T i → diff_pd T T i = Ok ∅.
Proof.
  intros Hv. rewrite diff_pd_eq by done. f_equal.
  unfold diff_of, removed_frame, changed_frame.
  rewrite removed_keys_self, changed_keys_self.
  by rewrite !put_empty.
Qed.

Lemma C3_identical_inputs_empty_witness :
  valid_key people_old people_old (Col "id") ∧
  diff_pd people_old people_old (Col "id") = Ok ∅.
Proof.
  split; [exact people_old_valid_key|].
  apply (C3_identical_inputs_empty people_old (Col "id")).
  valid_key_by_computation.
Defined.

(** C5. If a requested key column is absent as a column from the old
    table or from the new table, [diff_pd] raises [KeyError] (the
    specification's KeyColumnMissing) and returns no mapping at all. *)
Theorem C5_missing_key_column (old new : DataFrame) (i : idx_col) (c : string) :
  c ∈ labels i → c ∉ columns old ∨ c ∉ columns new →
  diff_pd old new i = Raise KeyError.
Proof.
  intros Hc [Hmiss|Hmiss]; unfold diff_pd.
  - by rewrite (set_index_KeyError old i c).
  - rewrite (set_index_KeyError new i c) by done.
    unfold set_index at 1. by case_decide.
Qed.

(** Scenario 3 of the specification: the key column "sku" is missing
    from the new table. *)
Lemma C5_missing_key_column_witness :
  "sku" ∈ labels (Col "sku") ∧
  ("sku" ∉ columns stock_old ∨ "sku" ∉ columns stock_new) ∧
  diff_pd stock_old stock_new (Col "sku") = Raise KeyError.
Proof.
  assert ("sku" ∈ labels (Col "sku")) as H1 by by_computation.
  assert ("sku" ∉ columns stock_old ∨ "sku" ∉ columns stock_new) as H2
    by (right; by_computation).
  split; [exact H1|]. split; [exact H2|].
  exact (C5_missing_key_column stock_old stock_new (Col "sku") "sku" H1 H2).
Defined.

Lemma common_keys_comm o n : common_keys o n = common_keys n o.
Proof. apply intersect1d_comm; apply _. Qed.

Lemma common_columns_comm o n : common_columns o n = common_columns n o.
Proof. apply intersect1d_comm; apply _. Qed.

Lemma changed_keys_comm o n : changed_keys o n = changed_keys n o.
Proof.
  unfold changed_keys. rewrite (common_keys_comm o n).
  apply list_filter_iff. intros k. unfold row_changed.
  by rewrite (common_columns_comm o n), same_cells_sym.
Qed.

Lemma orderable_comm ks1 ks2 : orderable (ks1 ++ ks2) → orderable (ks2 ++ ks1).
Proof.
  intros [Hpresent Hkinds]. split.
  - rewrite Forall_app in *. tauto.
  - rewrite Forall_forall in Hkinds. apply Forall_forall. intros k Hk.
    assert (∀ k', k' ∈ ks2 ++ ks1 → k' ∈ ks1 ++ ks2) as Hsub.
    { intros k'. rewrite !elem_of_app. tauto. }
    rewrite (Hkinds k) by by apply Hsub.
    destruct (ks2 ++ ks1) as [|k0 ks] eqn:Hks; [by apply elem_of_nil in Hk|].
    simpl. symmetry. apply Hkinds, Hsub. by left.
Qed.

Lemma valid_key_sym old new i : valid_key old new i → valid_key new old i.
Proof. intros []. split; try done. by apply orderable_comm. Qed.

(** C6. Symmetry of the partition: swapping the two tables swaps the
    keys of "removed" and "added" and keeps the keys of "changed". *)
Theorem C6_symmetry (A B : DataFrame) (i : idx_col) :
  valid_key A B i →
  ∃ out1 out2,
    diff_pd A B i = Ok out1 ∧ diff_pd B A i = Ok out2 ∧
    result_keys out1 "removed" = result_keys out2 "added" ∧
    result_keys out1 "added" = result_keys out2 "removed" ∧
    result_keys out1 "changed" = result_keys out2 "changed".
Proof.
  intros Hv. pose proof (valid_key_sym _ _ _ Hv) as Hv'.
  eexists _, _. split; [by apply diff_pd_eq|]. split; [by apply diff_pd_eq|].
  unfold result_keys at 1 2 3 4.
  rewrite !lookup_diff_of_removed, !lookup_diff_of_added.
  split; [done|]. split; [done|].
  by rewrite !result_keys_changed, changed_keys_comm.
Qed.

Lemma C6_symmetry_witness :
  ∃ out1 out2,
    diff_pd people_old people_new (Col "id") = Ok out1 ∧
    diff_pd people_new people_old (Col "id") = Ok out2 ∧
    result_keys out1 "removed" = result_keys out2 "added" ∧
    result_keys out1 "added" = result_keys out2 "removed" ∧
    result_keys out1 "changed" = result_keys out2 "changed".
Proof.
  apply (C6_symmetry people_old people_new (Col "id")).
  valid_key_by_computation.
Defined.

(** ** The "changed" entry *)

Lemma changed_entry old new i out ch :
  valid_key old new i → diff_pd old new i = Ok out →
  out !! "changed" = Some ch →
  ch = changed_frame (indexed old i) (indexed new i).
Proof.
  intros Hv Hout Hch. rewrite diff_pd_eq in Hout by done.
  injection Hout as <-. rewrite lookup_diff_of_changed in Hch.
  destruct (empty _); congruence.
Qed.

Lemma changed_result_keys old new i out k :
  valid_key old new i → diff_pd old new i = Ok out →
  k ∈ result_keys out "changed" ↔
  k ∈ key_values old i ∧ k ∈ key_values new i ∧
  row_changed (indexed old i) (indexed new i) k.
Proof.
  intros Hv Hout. rewrite diff_pd_eq in Hout by done. injection Hout as <-.
  rewrite result_keys_changed.
  rewrite (elem_of_changed_keys _ _ _ (valid_key_keyed_pair _ _ _ Hv)).
  by rewrite !index_indexed.
Qed.

Lemma row_changed_witness o n k :
  row_changed o n k →
  ∃ c, c ∈ common_columns o n ∧
       ¬ cell_equal (strip (cell o k c)) (strip (cell n k c)).
Proof.
  unfold row_changed. rewrite !normalized_cells.
  induction (common_columns o n) as [|c cc IH]; [done|].
  rewrite !fmap_cons. cbn [same_cells]. intros [Hc|Hcc]%andb_false_iff.
  - exists c. split; [by left|]. rewrite <-same_value_cell_equal. congruence.
  - destruct (IH Hcc) as (c' & Hc' & Hne). exists c'. split; [by right|done].
Qed.



(** ** [str.strip] ignores surrounding whitespace *)








(** ** The test of [report_diff] is the equality rule *)

Lemma py_eq_eq v w : py_eq v w = true → v = w.
Proof.
  destruct v, w; simpl; try discriminate; try done.
  - by intros ->%bool_decide_eq_true.
  - by intros ->%bool_decide_eq_true.
Qed.

Lemma report_diff_test v w :
  py_eq v w || (isna v && isna w) = true ↔ cell_equal v w.
Proof.
  unfold cell_equal. rewrite orb_true_iff, andb_true_iff, !Is_true_true.
  split; intros [H|H]; auto.
  - left. by apply py_eq_eq.
  - subst w. destruct v; simpl; auto; left; by apply bool_decide_eq_true.
Qed.






(** The no-break space, the ideographic space and the em space are
    stripped like the blank and the tab. *)
Lemma strip_unicode_spaces :
  strip (VStr ([0xA0; 32] ++ lit "x y" ++ [0x3000; 9; 0x2003])%N) =
  VStr (lit "x y").
Proof. reflexivity. Qed.



(** ** The cells of the "changed" table *)

Lemma get_report_diff (f g : string → value) c cols :
  c ∈ cols →
  get c cols (report_diff <$> zip (f <$> cols) (g <$> cols)) =
  report_diff (f c, g c).
Proof.
  induction cols as [|a cols IH]; [by intros ?%elem_of_nil|].
  intros Hc. rewrite !fmap_cons. cbn [zip zip_with fmap list_fmap get].
  destruct (decide (c = a)) as [->|Hne]; [done|].
  apply IH. by apply elem_of_cons in Hc as [?|?].
Qed.

Lemma cell_changed_frame names o n k c :
  keyed_pair names o n →
  k ∈ changed_keys o n → c ∈ common_columns o n →
  cell (changed_frame o n) k c =
  report_diff (strip (cell o k c), strip (cell n k c)).
Proof.
  intros Hp Hk Hc. unfold cell, changed_frame at 2.
  rewrite cells_keyed by (done || by apply (NoDup_changed_keys names o n Hp)).
  simpl. rewrite !normalized_cells.
  by apply (get_report_diff (λ c, strip (cell o k c)) (λ c, strip (cell n k c))).
Qed.

Lemma report_diff_equal v w : cell_equal v w → report_diff (v, w) = v.
Proof.
  intros Heq. unfold report_diff. cbn [fst snd].
  by rewrite (proj2 (report_diff_test _ _) Heq).
Qed.

Lemma report_diff_unequal v w :
  ¬ cell_equal v w →
  report_diff (v, w) = VStr (py_str v ++ lit " ---> " ++ py_str w).
Proof.
  intros Hne. unfold report_diff. cbn [fst snd].
  destruct (py_eq _ _ || _) eqn:Htest; [|done].
  by apply report_diff_test in Htest.
Qed.




(** ** Tables that hold only their key column *)

(** C4. The union of the three key sets, on two tables that hold nothing
    but the key column "id": key 1 is in the old table alone, so it
    belongs to the union (as a removed key); [diff_pd] returns the empty
    mapping, so that no result table carries it.  The removed rows are
    selected, but a frame without columns is [empty] and line 51 leaves
    it out. *)
Lemma C4_key_only_tables :
  valid_key bare_old bare_new (Col "id") ∧
  diff_pd bare_old bare_new (Col "id") = Ok ∅ ∧
  [VInt 1] ∈ key_values bare_old (Col "id") ∧
  ([VInt 1] ∉ key_values bare_new (Col "id")) ∧
  [VInt 1] ∉ (result_keys ∅ "removed" ++ result_keys ∅ "added" ++
              result_keys ∅ "changed").
Proof.
  split; [valid_key_by_computation|].
  repeat split; try (vm_compute; reflexivity); by_computation.
Qed.

(** C8. The output contract on the same two tables: the removed table
    that line 50 selects has one row (key 1), so it is to be present in
    the result; [diff_pd] has no "removed" entry (nor an "added" one for
    key 2: it returns the empty mapping), because [DataFrame.empty] is
    true of a frame with rows and no columns. *)
Lemma C8_key_only_tables :
  valid_key bare_old bare_new (Col "id") ∧
  ∃ removed,
    loc (indexed bare_old (Col "id"))
        (setdiff1d key_le (index (indexed bare_old (Col "id")))
                          (index (indexed bare_new (Col "id")))) = Ok removed ∧
    rows removed = [([VInt 1], [])] ∧
    empty removed = true ∧
    ∃ out, diff_pd bare_old bare_new (Col "id") = Ok out ∧
           out !! "removed" = None ∧ out = ∅.
Proof.
  split; [valid_key_by_computation|].
  eexists. split; [vm_compute; reflexivity|]. split; [reflexivity|].
  split; [reflexivity|].
  exists ∅. repeat split; vm_compute; reflexivity.
Qed.

(** ** The store *)

Lemma preserves_ret {A} (a : A) : preserves (ret a).
Proof. by intros σ res σ' [= _ <-]. Qed.

Lemma preserves_lift {A} (r : result A) : preserves (lift r).
Proof. by intros σ res σ' [= _ <-]. Qed.

Lemma preserves_read r : preserves (read r).
Proof.
  intros σ res σ'. unfold read. by destruct (σ !! r); intros [= _ <-].
Qed.

Lemma preserves_alloc df : preserves (alloc df).
Proof.
  intros σ res σ'. unfold alloc. cbv zeta. intros [= _ <-].
  apply insert_subseteq, not_elem_of_dom, is_fresh.
Qed.

Lemma preserves_obind {A B} (m : M A) (f : A → M B) :
  preserves m → (∀ a, preserves (f a)) → preserves (obind m f).
Proof.
  intros Hm Hf σ res σ'. unfold obind.
  destruct (m σ) as [[a|e] σ1] eqn:Hrun.
  - intros Hrun'. trans σ1; [by eapply Hm|by eapply Hf].
  - intros [= _ <-]. by eapply Hm.
Qed.

Lemma preserves_attr {A} (f : DataFrame → A) self : preserves (attr f self).
Proof.
  apply preserves_obind; [apply preserves_read|]. intros df. apply preserves_ret.
Qed.

Lemma preserves_method f self : preserves (method f self).
Proof.
  apply preserves_obind; [apply preserves_read|]. intros df.
  apply preserves_obind; [apply preserves_lift|]. intros df'.
  apply preserves_alloc.
Qed.

Lemma preserves_method2 f a b : preserves (method2 f a b).
Proof.
  apply preserves_obind; [apply preserves_read|]. intros dfa.
  apply preserves_obind; [apply preserves_read|]. intros dfb.
  apply preserves_obind; [apply preserves_lift|]. intros df'.
  apply preserves_alloc.
Qed.

(** An assignment does not: the receiver holds another frame after
    [set_index(..., inplace=True)]. *)
Lemma set_index_inplace_overwrites self i (σ : store) df df' :
  σ !! self = Some df → set_index df i = Ok df' →
  set_index_inplace self i σ = (Ok (), <[self := df']> σ).
Proof.
  intros Hself Hdf. unfold set_index_inplace, obind, read, lift, write.
  by rewrite Hself, Hdf.
Qed.

Lemma set_index_inplace_not_preserves :
  ¬ preserves (set_index_inplace 1%positive (Col "id")).
Proof.
  intros Hp.
  assert (({[ 1%positive := bare_old ]} : store) ⊆
          <[1%positive := indexed bare_old (Col "id")]>
            {[ 1%positive := bare_old ]}) as Hsub.
  { apply (Hp _ (Ok ())).
    apply (set_index_inplace_overwrites _ _ _ bare_old); [|done].
    apply lookup_singleton_eq. }
  pose proof (lookup_weaken _ _ 1%positive bare_old
                (lookup_singleton_eq _ _) Hsub) as Hl.
  rewrite lookup_insert_eq in Hl. discriminate Hl.
Qed.

Create HintDb preserves.

#[global] Hint Resolve preserves_ret preserves_attr preserves_method
  preserves_method2 : preserves.

(** Every statement of [diff_pd] reads frames and builds new ones. *)
Lemma diff_pd_obj_preserves old_df new_df i :
  preserves (diff_pd_obj old_df new_df i).
Proof.
  unfold diff_pd_obj, set_index_obj.
  repeat (apply preserves_obind; [auto with preserves|intros ?]).
  apply preserves_ret.
Qed.

(** C10. A call of [diff_pd] leaves every table that the store held
    before the call as it was, whether the call returns or raises: in
    particular the caller's old and new tables hold the same columns,
    rows and cells afterwards.  This follows from the statements of
    [diff_pd_obj], none of which assigns into a frame. *)
Theorem C10_inputs_unchanged (old_df new_df : ref) (i : idx_col)
    (σ σ' : store) (res : result (gmap string ref))
    (old new : DataFrame) :
  σ !! old_df = Some old → σ !! new_df = Some new →
  diff_pd_obj old_df new_df i σ = (res, σ') →
  σ' !! old_df = Some old ∧ σ' !! new_df = Some new ∧
  ∀ r df, σ !! r = Some df → σ' !! r = Some df.
Proof.
  intros Ho Hn Hcall.
  pose proof (diff_pd_obj_preserves old_df new_df i σ res σ' Hcall) as Hsub.
  split; [|split].
  - by eapply lookup_weaken.
  - by eapply lookup_weaken.
  - intros r df Hr. by eapply lookup_weaken.
Qed.

Lemma C10_inputs_unchanged_witness :
  let σ : store :=
    <[1%positive := people_old]> (<[2%positive := people_new]> ∅) in
  (diff_pd_obj 1 2 (Col "id") σ).2 !! 1%positive = Some people_old ∧
  (diff_pd_obj 1 2 (Col "id") σ).2 !! 2%positive = Some people_new ∧
  ∀ r df, σ !! r = Some df →
          (diff_pd_obj 1 2 (Col "id") σ).2 !! r = Some df.
Proof.
  intros σ.
  apply (C10_inputs_unchanged 1 2 (Col "id") σ _
           (diff_pd_obj 1 2 (Col "id") σ).1 people_old people_new).
  - vm_compute. reflexivity.
  - vm_compute. reflexivity.
  - by destruct (diff_pd_obj 1 2 (Col "id") σ).
Defined.

(** ** The call on references computes [diff_pd] *)

Lemma obind_attr {A B} (f : DataFrame → A) self (k : A → M B) (σ : store) df :
  σ !! self = Some df → obind (attr f self) k σ = k (f df) σ.
Proof. intros H. unfold attr, obind, read, ret. by rewrite H. Qed.

Lemma lookup_alloc (σ : store) r df d :
  σ !! r = Some df → <[fresh (dom σ) := d]> σ !! r = Some df.
Proof.
  intros Hr. rewrite lookup_insert_ne; [done|]. intros <-.
  apply (is_fresh (dom σ)), elem_of_dom. by eexists.
Qed.

Lemma refines_method f self (k : ref → M (gmap string ref)) (σ : store) df pure :
  σ !! self = Some df →
  (∀ e, f df = Raise e → refines (Raise e, σ) pure) →
  (∀ df' r σ', f df = Ok df' → σ' !! r = Some df' →
     (∀ x y, σ !! x = Some y → σ' !! x = Some y) → refines (k r σ') pure) →
  refines (obind (method f self) k σ) pure.
Proof.
  intros Hself Hraise Hok. unfold method, obind, read, lift, alloc.
  rewrite Hself. destruct (f df) as [df'|e] eqn:Hf.
  - apply (Hok df'); [done|apply lookup_insert_eq|].
    intros x y. apply lookup_alloc.
  - by apply Hraise.
Qed.

Lemma refines_method2 f a b (k : ref → M (gmap string ref)) (σ : store)
    dfa dfb pure :
  σ !! a = Some dfa → σ !! b = Some dfb →
  (∀ e, f dfa dfb = Raise e → refines (Raise e, σ) pure) →
  (∀ df' r σ', f dfa dfb = Ok df' → σ' !! r = Some df' →
     (∀ x y, σ !! x = Some y → σ' !! x = Some y) → refines (k r σ') pure) →
  refines (obind (method2 f a b) k σ) pure.
Proof.
  intros Ha Hb Hraise Hok. unfold method2, obind, read, lift, alloc.
  rewrite Ha, Hb. destruct (f dfa dfb) as [df'|e] eqn:Hf.
  - apply (Hok df'); [done|apply lookup_insert_eq|].
    intros x y. apply lookup_alloc.
  - by apply Hraise.
Qed.

(** One statement of [diff_pd_obj]: the frame it reads is in the store,
    the frame it builds is at a new reference, and what the store held
    is still there. *)
Ltac moved σ Hpres :=
  repeat match goal with
         | H : σ !! _ = Some _ |- _ => apply Hpres in H
         end;
  clear Hpres.

Ltac statement :=
  match goal with
  | H : ?σ !! ?self = Some ?df
    |- refines (obind (attr ?f ?self) ?k ?σ) _ =>
      rewrite (obind_attr f self k σ df H); cbv beta
  | H : ?σ !! ?self = Some ?df
    |- refines (obind (method ?f ?self) ?k ?σ) _ =>
      let Hf := fresh "Hf" in let Hpres := fresh "Hpres" in
      apply (refines_method f self k σ df _ H); cbv beta;
      [ intros ? Hf; try discriminate Hf; rewrite Hf; reflexivity
      | intros ? ? ? Hf ? Hpres; moved σ Hpres;
        first [ injection Hf as <- | rewrite Hf; cbn [bind] ] ]
  | Ha : ?σ !! ?a = Some ?dfa, Hb : ?σ !! ?b = Some ?dfb
    |- refines (obind (method2 ?f ?a ?b) ?k ?σ) _ =>
      let Hf := fresh "Hf" in let Hpres := fresh "Hpres" in
      apply (refines_method2 f a b k σ dfa dfb _ Ha Hb); cbv beta;
      [ intros ? Hf; discriminate Hf
      | intros ? ? ? Hf ? Hpres; moved σ Hpres; injection Hf as <- ]
  end.

Lemma diff_pd_obj_refines old_df new_df i (σ : store) old new :
  σ !! old_df = Some old → σ !! new_df = Some new →
  refines (diff_pd_obj old_df new_df i σ) (diff_pd old new i).
Proof.
  intros Ho Hn. unfold diff_pd_obj, diff_pd, set_index_obj. cbv zeta.
  repeat statement.
  unfold ret, refines. cbn [fst snd].
  eexists. split; [reflexivity|]. intros name.
  repeat match goal with
         | |- context [negb (empty ?d)] => destruct (empty d)
         end; cbn [negb].
  all: repeat first
         [ rewrite lookup_empty
         | destruct (decide (name = "changed")) as [->|?];
           [rewrite !lookup_insert_eq|rewrite !lookup_insert_ne by done]
         | destruct (decide (name = "added")) as [->|?];
           [rewrite !lookup_insert_eq|rewrite !lookup_insert_ne by done]
         | destruct (decide (name = "removed")) as [->|?];
           [rewrite !lookup_insert_eq|rewrite !lookup_insert_ne by done] ];
       simpl; done.
Qed.

(** * Further properties of the code *)

(** ** [strip] *)

Lemma lstrip_split l :
  ∃ ws, Forall (λ a, is_space a = true) ws ∧ l = ws ++ lstrip l.
Proof.
  induction l as [|a l (ws & Hws & IH)]; [by exists []|]. simpl.
  destruct (is_space a) eqn:Ha.
  - exists (a :: ws). split; [by constructor|]. simpl. by f_equal.
  - by exists [].
Qed.

Lemma lstrip_head l a : head (lstrip l) = Some a → is_space a = false.
Proof.
  induction l as [|b l IH]; [done|]. simpl.
  destruct (is_space b) eqn:Hb; [done|]. simpl. congruence.
Qed.

Lemma lstrip_fixed l :
  (∀ a, head l = Some a → is_space a = false) → lstrip l = l.
Proof. destruct l as [|a l]; [done|]. simpl. intros H. by rewrite H. Qed.

Lemma head_rev (l : str) : head (rev l) = last l.
Proof.
  induction l as [|a l IH] using rev_ind; [done|].
  by rewrite rev_app_distr, last_snoc.
Qed.

Lemma last_rev (l : str) : last (rev l) = head l.
Proof. by rewrite <-head_rev, rev_involutive. Qed.

Lemma rstrip_split l :
  ∃ ws, Forall (λ a, is_space a = true) ws ∧ l = rstrip l ++ ws.
Proof.
  destruct (lstrip_split (rev l)) as (ws & Hws & Hl).
  exists (rev ws). split.
  - apply Forall_forall. intros a Ha%list_elem_of_In%in_rev%list_elem_of_In.
    rewrite Forall_forall in Hws. by apply Hws.
  - unfold rstrip. by rewrite <-rev_app_distr, <-Hl, rev_involutive.
Qed.

Lemma rstrip_last l a : last (rstrip l) = Some a → is_space a = false.
Proof. unfold rstrip. rewrite last_rev. apply lstrip_head. Qed.

Lemma rstrip_fixed l :
  (∀ a, last l = Some a → is_space a = false) → rstrip l = l.
Proof.
  intros H. unfold rstrip. rewrite lstrip_fixed; [apply rev_involutive|].
  intros a. rewrite head_rev. apply H.
Qed.

Lemma rstrip_head l a : head (rstrip l) = Some a → head l = Some a.
Proof.
  destruct (rstrip_split l) as (ws & _ & Hl). rewrite Hl at 2.
  by destruct (rstrip l).
Qed.

(** The characters [str.strip] keeps start and end with a character that
    is not whitespace. *)
Lemma stripped_ends l a :
  head (str_strip l) = Some a ∨ last (str_strip l) = Some a →
  is_space a = false.
Proof.
  unfold str_strip. intros [H|H].
  - by eapply lstrip_head, rstrip_head.
  - by eapply rstrip_last.
Qed.

Lemma str_strip_str_strip (s : str) : str_strip (str_strip s) = str_strip s.
Proof.
  unfold str_strip at 1. set (m := str_strip s).
  rewrite (lstrip_fixed m), (rstrip_fixed m); [done|..].
  - intros a Ha. apply (stripped_ends s). by right.
  - intros a Ha. apply (stripped_ends s). by left.
Qed.

(** X1. [strip] is idempotent: normalizing a normalized cell changes
    nothing. *)
Theorem strip_idempotent (x : value) : strip (strip x) = strip x.
Proof.
  destruct x as [s| | |]; try done. simpl. f_equal.
  apply str_strip_str_strip.
Qed.

(** X2. [strip] removes whitespace from the two ends of a text and
    nothing else: the text is the stripped text between two runs of
    whitespace, and the stripped text neither starts nor ends with a
    whitespace character.  Whitespace is what Python takes for it, the
    blank and the controls of ASCII as well as the Unicode spaces. *)
Theorem strip_removes_surrounding_whitespace (s : str) :
  (∃ l r, whitespace l ∧ whitespace r ∧ s = l ++ str_strip s ++ r) ∧
  ∀ a, head (str_strip s) = Some a ∨ last (str_strip s) = Some a →
       is_space a = false.
Proof.
  split.
  - destruct (lstrip_split s) as (l & Hl & Hs).
    destruct (rstrip_split (lstrip s)) as (r & Hr & Hm).
    exists l, r. split; [done|]. split; [done|].
    unfold str_strip. by rewrite <-Hm.
  - apply stripped_ends.
Qed.

(** ** Equal cells and rendered differences *)

Lemma changed_row old new i out ch k :
  valid_key old new i → diff_pd old new i = Ok out →
  out !! "changed" = Some ch → k ∈ index ch →
  ch = changed_frame (indexed old i) (indexed new i) ∧
  k ∈ changed_keys (indexed old i) (indexed new i).
Proof.
  intros Hv Hout Hch Hk.
  pose proof (changed_entry old new i out ch Hv Hout Hch) as ->.
  by rewrite index_changed_frame in Hk.
Qed.

(** X3. In a row classified as changed, a shared cell that holds the
    same text on both sides after normalization holds that text.  (A
    cell of another kind that is equal on both sides holds the old value
    in the form pandas gives the column of results, where an integer
    beside a missing value is a float.)  Stated, as the properties below
    that say which rows are reported as changed, for tables of integers
    within [exact_ints]. *)
Theorem changed_table_equal_cell (old new : DataFrame) (i : idx_col)
    (out : gmap string DataFrame) (ch : DataFrame) (k : key) (c : string)
    (s : str) :
  valid_key old new i → exact_ints old → exact_ints new →
  diff_pd old new i = Ok out →
  out !! "changed" = Some ch → k ∈ index ch → c ∈ columns ch →
  strip (cell (indexed old i) k c) = VStr s →
  strip (cell (indexed new i) k c) = VStr s →
  cell ch k c = VStr s.
Proof.
  intros Hv _ _ Hout Hch Hk Hc Hold Hnew.
  pose proof (valid_key_keyed_pair _ _ _ Hv) as Hp.
  destruct (changed_row old new i out ch k) as [-> Hk']; [done..|].
  simpl in Hc.
  rewrite (cell_changed_frame _ _ _ k c Hp) by done.
  rewrite Hold, Hnew. apply report_diff_equal. by left.
Qed.

Lemma changed_table_equal_cell_witness :
  cell (changed_frame (indexed people_old (Col "id"))
                      (indexed people_new (Col "id"))) [VInt 1] "name" =
  VStr (lit "Alice").
Proof.
  apply (changed_table_equal_cell people_old people_new (Col "id")
           (diff_of (indexed people_old (Col "id")) (indexed people_new (Col "id")))).
  - valid_key_by_computation.
  - by_computation.
  - by_computation.
  - vm_compute. reflexivity.
  - vm_compute. reflexivity.
  - by_computation.
  - by_computation.
  - vm_compute. reflexivity.
  - vm_compute. reflexivity.
Defined.

(** X4. Every row of the "changed" table shows at least one rendered
    difference: some column of the row, in which the normalized values
    fail the equality rule, holds a text of the form "... ---> ...".
    Stated for tables of integers within [exact_ints]. *)
Theorem changed_row_has_arrow (old new : DataFrame) (i : idx_col)
    (out : gmap string DataFrame) (ch : DataFrame) (k : key) :
  valid_key old new i → exact_ints old → exact_ints new →
  diff_pd old new i = Ok out →
  out !! "changed" = Some ch → k ∈ index ch →
  ∃ c a b, c ∈ columns ch ∧
       ¬ cell_equal (strip (cell (indexed old i) k c))
                    (strip (cell (indexed new i) k c)) ∧
       cell ch k c = VStr (a ++ lit " ---> " ++ b).
Proof.
  intros Hv _ _ Hout Hch Hk.
  pose proof (valid_key_keyed_pair _ _ _ Hv) as Hp.
  destruct (changed_row old new i out ch k) as [-> Hk']; [done..|].
  assert (row_changed (indexed old i) (indexed new i) k) as Hrow.
  { by apply (elem_of_changed_keys _ _ _ Hp) in Hk' as (_ & _ & ?). }
  destruct (row_changed_witness _ _ _ Hrow) as (c & Hc & Hne).
  exists c, (py_str (strip (cell (indexed old i) k c))),
    (py_str (strip (cell (indexed new i) k c))).
  split; [done|]. split; [done|].
  rewrite (cell_changed_frame _ _ _ k c Hp) by done.
  by apply report_diff_unequal.
Qed.

Lemma changed_row_has_arrow_witness :
  ∃ c a b,
    c ∈ columns (changed_frame (indexed people_old (Col "id"))
                               (indexed people_new (Col "id"))) ∧
    ¬ cell_equal (strip (cell (indexed people_old (Col "id")) [VInt 1] c))
                 (strip (cell (indexed people_new (Col "id")) [VInt 1] c)) ∧
    cell (changed_frame (indexed people_old (Col "id"))
                        (indexed people_new (Col "id"))) [VInt 1] c =
    VStr (a ++ lit " ---> " ++ b).
Proof.
  apply (changed_row_has_arrow people_old people_new (Col "id")
           (diff_of (indexed people_old (Col "id")) (indexed people_new (Col "id")))).
  - valid_key_by_computation.
  - by_computation.
  - by_computation.
  - vm_compute. reflexivity.
  - vm_compute. reflexivity.
  - by_computation.
Defined.



(** ** The shape of the result *)

Lemma empty_false df : empty df = false ↔ rows df ≠ [] ∧ columns df ≠ [].
Proof.
  unfold empty. rewrite orb_false_iff, !bool_decide_eq_false. done.
Qed.

(** ** The "removed" and "added" tables *)

Lemma get_take c sel cols cs :
  c ∈ sel → get c sel (take sel cols cs) = get c cols cs.
Proof.
  induction sel as [|a sel IH]; [by intros ?%elem_of_nil|].
  intros Hc. unfold take. rewrite fmap_cons. cbn [get].
  destruct (decide (c = a)) as [->|Hne]; [done|].
  apply IH. by apply elem_of_cons in Hc as [?|?].
Qed.

Lemma removed_frame_cell names o n k c :
  keyed_pair names o n → k ∈ removed_keys o n →
  cell (removed_frame o n) k c = cell o k c.
Proof.
  intros Hp Hk. unfold cell, removed_frame at 2.
  rewrite cells_keyed; [done|apply (NoDup_removed_keys names o n Hp)|done].
Qed.

Lemma indexed_cell df i (r : row) c :
  NoDup (key_values df i) → r ∈ rows df →
  c ∈ columns df → c ∉ labels i →
  cell (indexed df i) (take (labels i) (columns df) r.2) c =
  get c (columns df) r.2.
Proof.
  intros Hnd Hr Hc Hkey. unfold cell.
  set (rest := filter (λ c, c ∉ labels i) (columns df)).
  assert (cells (indexed df i) (take (labels i) (columns df) r.2) =
          take rest (columns df) r.2) as ->.
  { apply (cells_row (indexed df i)
             (take (labels i) (columns df) r.2, take rest (columns df) r.2)).
    - by rewrite index_indexed.
    - simpl. by apply (list_elem_of_fmap_2
        (λ r : row, (take (labels i) (columns df) r.2,
                     take rest (columns df) r.2))). }
  simpl. apply get_take. by apply list_elem_of_filter.
Qed.

(** X6. The "removed" table carries the index levels of the key and all
    other columns of the old table, in the old table's order, and each of
    its rows holds the cells of the old table's row with that key as they
    are (not normalized).  The "added" table does so for the new
    table. *)
Theorem removed_added_tables_raw (old new : DataFrame) (i : idx_col)
    (out : gmap string DataFrame) :
  valid_key old new i → diff_pd old new i = Ok out →
  (∀ rm, out !! "removed" = Some rm →
     index_names rm = labels i ∧
     columns rm = filter (λ c, c ∉ labels i) (columns old) ∧
     ∀ (r : row) c, r ∈ rows old →
       take (labels i) (columns old) r.2 ∈ index rm → c ∈ columns rm →
       cell rm (take (labels i) (columns old) r.2) c = get c (columns old) r.2) ∧
  (∀ ad, out !! "added" = Some ad →
     index_names ad = labels i ∧
     columns ad = filter (λ c, c ∉ labels i) (columns new) ∧
     ∀ (r : row) c, r ∈ rows new →
       take (labels i) (columns new) r.2 ∈ index ad → c ∈ columns ad →
       cell ad (take (labels i) (columns new) r.2) c = get c (columns new) r.2).
Proof.
  intros Hv Hout.
  pose proof (valid_key_sym _ _ _ Hv) as Hv'.
  pose proof (valid_key_keyed_pair _ _ _ Hv) as Hp.
  pose proof (valid_key_keyed_pair _ _ _ Hv') as Hp'.
  rewrite diff_pd_eq in Hout by done. injection Hout as <-.
  split.
  - intros rm. rewrite lookup_diff_of_removed.
    destruct (empty _); [done|]. intros [= <-].
    split; [done|]. split; [done|].
    intros r c Hr Hk Hc. rewrite index_removed_frame in Hk.
    rewrite (removed_frame_cell _ _ _ _ c Hp Hk).
    simpl in Hc. apply list_elem_of_filter in Hc as [Hkey Hc].
    apply indexed_cell; [apply Hv|done..].
  - intros ad. rewrite lookup_diff_of_added.
    destruct (empty _); [done|]. intros [= <-].
    split; [done|]. split; [done|].
    intros r c Hr Hk Hc. rewrite index_removed_frame in Hk.
    rewrite (removed_frame_cell _ _ _ _ c Hp' Hk).
    simpl in Hc. apply list_elem_of_filter in Hc as [Hkey Hc].
    apply indexed_cell; [apply Hv|done..].
Qed.

Lemma removed_added_tables_raw_witness :
  (∀ rm, diff_of (indexed people_old (Col "id")) (indexed people_new (Col "id"))
           !! "removed" = Some rm →
     index_names rm = labels (Col "id") ∧
     columns rm = filter (λ c, c ∉ labels (Col "id")) (columns people_old) ∧
     ∀ (r : row) c, r ∈ rows people_old →
       take (labels (Col "id")) (columns people_old) r.2 ∈ index rm →
       c ∈ columns rm →
       cell rm (take (labels (Col "id")) (columns people_old) r.2) c =
       get c (columns people_old) r.2) ∧
  (∀ ad, diff_of (indexed people_old (Col "id")) (indexed people_new (Col "id"))
           !! "added" = Some ad →
     index_names ad = labels (Col "id") ∧
     columns ad = filter (λ c, c ∉ labels (Col "id")) (columns people_new) ∧
     ∀ (r : row) c, r ∈ rows people_new →
       take (labels (Col "id")) (columns people_new) r.2 ∈ index ad →
       c ∈ columns ad →
       cell ad (take (labels (Col "id")) (columns people_new) r.2) c =
       get c (columns people_new) r.2).
Proof.
  apply (removed_added_tables_raw people_old people_new (Col "id")).
  - valid_key_by_computation.
  - vm_compute. reflexivity.
Defined.

(** ** The order of the result rows *)

Section sorted_facts.
Context {A : Type} `{EqDecision A} (R : relation A) `{!RelDecision R}.
Context `{!Total R, !Transitive R, !AntiSymm (=) R}.






End sorted_facts.


Lemma index_nil df : index df ≠ [] ↔ rows df ≠ [].
Proof. unfold index. by destruct (rows df). Qed.

Lemma rows_indexed_nil df i : rows (indexed df i) ≠ [] ↔ rows df ≠ [].
Proof. simpl. by destruct (rows df). Qed.

Lemma difference_sorts_indexed old new i :
  difference_sorts old new i →
  (is_MultiIndex (indexed old i) = false ∨ index (indexed new i) ≠ []) ∧
  (is_MultiIndex (indexed new i) = false ∨ index (indexed old i) ≠ []).
Proof.
  unfold is_MultiIndex. simpl. rewrite !index_nil, !rows_indexed_nil.
  intros [Hone|[Ho Hn]]; [|tauto].
  rewrite bool_decide_eq_false_2 by lia. tauto.
Qed.




(** ** No "changed" table *)

(** X8. When the two tables have no key in common (one of them is empty,
    or they are fully disjoint), or share no column besides the key, the
    result has no "changed" entry. *)
Theorem no_changed_table (old new : DataFrame) (i : idx_col)
    (out : gmap string DataFrame) :
  valid_key old new i → diff_pd old new i = Ok out →
  (∀ k, k ∈ key_values old i → k ∉ key_values new i) ∨
  (∀ c, c ∈ columns old → c ∈ columns new → c ∈ labels i) →
  out !! "changed" = None.
Proof.
  intros Hv Hout Hor.
  pose proof (valid_key_keyed_pair _ _ _ Hv) as Hp.
  rewrite diff_pd_eq in Hout by done. injection Hout as <-.
  rewrite lookup_diff_of_changed, empty_changed_frame.
  rewrite bool_decide_eq_true_2; [done|].
  destruct Hor as [Hkeys|Hcols].
  - apply list_nil_no_elem. intros k Hk.
    apply (elem_of_changed_keys _ _ _ Hp) in Hk as (Ho & Hn & _).
    rewrite index_indexed in Ho, Hn. by apply (Hkeys k).
  - apply changed_keys_columns, list_nil_no_elem. intros c Hc.
    apply (elem_of_common_columns _ _ _ Hp) in Hc as [Ho Hn].
    simpl in Ho, Hn.
    apply list_elem_of_filter in Ho as [Hkey Ho].
    apply list_elem_of_filter in Hn as [_ Hn]. by apply Hkey, Hcols.
Qed.

Lemma no_changed_table_witness :
  diff_of (indexed bare_old (Col "id")) (indexed bare_new (Col "id"))
    !! "changed" = None.
Proof.
  apply (no_changed_table bare_old bare_new (Col "id")).
  - valid_key_by_computation.
  - vm_compute. reflexivity.
  - left. intros k Hk. revert Hk.
    assert (key_values bare_old (Col "id") = [[VInt 1]]) as ->
      by (vm_compute; reflexivity).
    assert (key_values bare_new (Col "id") = [[VInt 2]]) as ->
      by (vm_compute; reflexivity).
    intros ->%list_elem_of_singleton. by_computation.
Defined.

(** ** The order of the input rows *)

Lemma np_sort_perm {A} (R : relation A) `{!RelDecision R}
    `{!Total R, !Transitive R, !AntiSymm (=) R} (l l' : list A) :
  l ≡ₚ l' → np_sort R l = np_sort R l'.
Proof.
  intros Hl. apply (StronglySorted_unique R); [by apply np_sort_sorted..|].
  by rewrite !np_sort_Permutation.
Qed.

Lemma index_same_rows o' o : same_rows o' o → index o' ≡ₚ index o.
Proof. intros (_ & _ & Hr). unfold index. by rewrite Hr. Qed.

Lemma cells_same_rows o' o k :
  same_rows o' o → NoDup (index o) → cells o' k = cells o k.
Proof.
  intros (_ & _ & Hr) Hnd. unfold cells.
  assert (filter (λ r : row, r.1 = k) (rows o') ≡ₚ
          filter (λ r : row, r.1 = k) (rows o)) as Hf by (by rewrite Hr).
  destruct (decide (k ∈ index o)) as [Hk|Hk].
  - apply list_elem_of_fmap in Hk as (r & -> & Hin).
    rewrite (filter_key (rows o) r) in Hf |- * by done.
    by apply Permutation_singleton_r in Hf as ->.
  - assert (filter (λ r : row, r.1 = k) (rows o) = []) as Hnil.
    { apply filter_none, Forall_forall. intros r Hin Heq. apply Hk.
      rewrite <-Heq. by apply list_elem_of_fmap_2. }
    rewrite Hnil in Hf |- *. by apply Permutation_nil_r in Hf as ->.
Qed.

Lemma removed_keys_same_rows o' o n' n :
  same_rows o' o → same_rows n' n → NoDup (index o) →
  is_MultiIndex o = false ∨ index n ≠ [] →
  removed_keys o' n' = removed_keys o n.
Proof.
  intros Ho Hn Hnd Hor.
  pose proof (index_same_rows _ _ Ho) as Hio.
  pose proof (index_same_rows _ _ Hn) as Hin.
  assert (NoDup (index o')) as Hnd' by (by rewrite Hio).
  unfold removed_keys.
  rewrite (is_MultiIndex_names o' o) by apply Ho.
  destruct (is_MultiIndex o).
  - destruct Hor as [?|Hne]; [done|]. unfold difference.
    destruct (index n) as [|y l] eqn:Hy; [done|].
    destruct (index n') as [|y' l'] eqn:Hy';
      [by apply Permutation_nil_l in Hin|].
    rewrite !pd_unique_NoDup by done.
    apply np_sort_perm; [apply _..|].
    rewrite Hio.
    rewrite (list_filter_iff (λ x, x ∉ y' :: l') (λ x, x ∉ y :: l)); [done|].
    intros x. by rewrite Hin.
  - unfold setdiff1d, np_unique.
    by rewrite (np_sort_perm key_le _ _ Hio), (np_sort_perm key_le _ _ Hin).
Qed.

Lemma common_keys_same_rows o' o n' n :
  same_rows o' o → same_rows n' n → common_keys o' n' = common_keys o n.
Proof.
  intros Ho Hn. unfold common_keys, intersect1d. f_equal.
  apply np_sort_perm; [apply _..|].
  by rewrite (index_same_rows _ _ Ho), (index_same_rows _ _ Hn).
Qed.

Lemma common_columns_same_rows o' o n' n :
  same_rows o' o → same_rows n' n → common_columns o' n' = common_columns o n.
Proof.
  intros (_ & Ho & _) (_ & Hn & _). unfold common_columns. by rewrite Ho, Hn.
Qed.

Lemma normalized_same_rows o' o cols k :
  same_rows o' o → NoDup (index o) →
  normalized o' cols k = normalized o cols k.
Proof.
  intros Ho Hnd. unfold normalized.
  rewrite (cells_same_rows o' o k) by done.
  by destruct Ho as (_ & -> & _).
Qed.

Lemma row_changed_same_rows o' o n' n k :
  same_rows o' o → same_rows n' n → NoDup (index o) → NoDup (index n) →
  row_changed o' n' k ↔ row_changed o n k.
Proof.
  intros Ho Hn Hndo Hndn. unfold row_changed.
  rewrite (common_columns_same_rows o' o n' n) by done.
  by rewrite (normalized_same_rows o' o), (normalized_same_rows n' n).
Qed.

Lemma changed_keys_same_rows o' o n' n :
  same_rows o' o → same_rows n' n → NoDup (index o) → NoDup (index n) →
  changed_keys o' n' = changed_keys o n.
Proof.
  intros Ho Hn Hndo Hndn. unfold changed_keys.
  rewrite (common_keys_same_rows o' o n' n) by done.
  apply list_filter_iff. intros k. by apply row_changed_same_rows.
Qed.

Lemma diff_of_same_rows o' o n' n :
  same_rows o' o → same_rows n' n → NoDup (index o) → NoDup (index n) →
  is_MultiIndex o = false ∨ index n ≠ [] →
  is_MultiIndex n = false ∨ index o ≠ [] →
  diff_of o' n' = diff_of o n.
Proof.
  intros Ho Hn Hndo Hndn Hso Hsn.
  assert (removed_frame o' n' = removed_frame o n) as Hr.
  { unfold removed_frame. rewrite (removed_keys_same_rows o' o n' n) by done.
    pose proof Ho as (Hi & Hc & _). rewrite Hi, Hc.
    apply keyed_ext. intros k _. by apply cells_same_rows. }
  assert (removed_frame n' o' = removed_frame n o) as Ha.
  { unfold removed_frame. rewrite (removed_keys_same_rows n' n o' o) by done.
    pose proof Hn as (Hi & Hc & _). rewrite Hi, Hc.
    apply keyed_ext. intros k _. by apply cells_same_rows. }
  assert (changed_frame o' n' = changed_frame o n) as Hc.
  { unfold changed_frame.
    rewrite (changed_keys_same_rows o' o n' n),
      (common_columns_same_rows o' o n' n) by done.
    pose proof Ho as (Hi & _ & _). rewrite Hi. apply keyed_ext. intros k _.
    by rewrite (normalized_same_rows o' o), (normalized_same_rows n' n). }
  unfold diff_of. by rewrite Hr, Ha, Hc.
Qed.

Lemma indexed_same_rows df' df i :
  columns df' = columns df → (rows df').*2 ≡ₚ (rows df).*2 →
  same_rows (indexed df' i) (indexed df i).
Proof.
  intros Hc Hr. unfold same_rows, indexed. simpl.
  rewrite Hc. split; [done|]. split; [done|].
  set (g := λ cs : list value,
         (take (labels i) (columns df) cs,
          take (filter (λ c, c ∉ labels i) (columns df)) (columns df) cs)).
  trans (g <$> (rows df').*2); [by rewrite <-list_fmap_compose|].
  rewrite Hr. by rewrite <-list_fmap_compose.
Qed.

Lemma key_values_same_rows df' df i :
  columns df' = columns df → (rows df').*2 ≡ₚ (rows df).*2 →
  key_values df' i ≡ₚ key_values df i.
Proof.
  intros Hc Hr. unfold key_values. rewrite Hc.
  trans (take (labels i) (columns df) <$> (rows df').*2);
    [by rewrite <-list_fmap_compose|].
  rewrite Hr. by rewrite <-list_fmap_compose.
Qed.

Lemma orderable_perm ks ks' : ks' ≡ₚ ks → orderable ks → orderable ks'.
Proof.
  intros Hperm [Hpresent Hkinds]. split; [by rewrite Hperm|].
  rewrite Forall_forall in Hkinds. apply Forall_forall. intros k Hk.
  rewrite (Hkinds k) by (by rewrite <-Hperm).
  destruct ks' as [|k0 ks']; [by apply elem_of_nil in Hk|].
  simpl. symmetry. apply Hkinds. rewrite <-Hperm. by left.
Qed.

Lemma valid_key_same_rows old old' new new' i :
  valid_key old new i →
  columns old' = columns old → (rows old').*2 ≡ₚ (rows old).*2 →
  columns new' = columns new → (rows new').*2 ≡ₚ (rows new).*2 →
  valid_key old' new' i.
Proof.
  intros [] Hco Hro Hcn Hrn.
  pose proof (key_values_same_rows old' old i Hco Hro) as Hko.
  pose proof (key_values_same_rows new' new i Hcn Hrn) as Hkn.
  split; rewrite ?Hco, ?Hcn, ?Hko, ?Hkn; try done.
  eapply orderable_perm; [|done]. by rewrite Hko, Hkn.
Qed.

(** X9. The order of the rows of the input tables does not matter:
    tables with the same columns and the same rows of cells in another
    order give the same result (the index the inputs come with is
    replaced by the key and plays no part).  This is stated for the
    inputs on which [Index.difference] sorts: with a composite key and a
    table without rows, the removed or added rows come in the order of
    the input. *)
Theorem row_order_irrelevant (old old' new new' : DataFrame) (i : idx_col) :
  valid_key old new i → difference_sorts old new i →
  columns old' = columns old → (rows old').*2 ≡ₚ (rows old).*2 →
  columns new' = columns new → (rows new').*2 ≡ₚ (rows new).*2 →
  diff_pd old' new' i = diff_pd old new i.
Proof.
  intros Hv Hsorts Hco Hro Hcn Hrn.
  pose proof (valid_key_same_rows _ _ _ _ _ Hv Hco Hro Hcn Hrn) as Hv'.
  pose proof (valid_key_keyed_pair _ _ _ Hv) as Hp.
  destruct (difference_sorts_indexed _ _ _ Hsorts) as [Hso Hsn].
  rewrite !diff_pd_eq by done. f_equal.
  apply diff_of_same_rows;
    [by apply indexed_same_rows..|apply Hp|apply Hp|done|done].
Qed.

Lemma row_order_irrelevant_witness :
  diff_pd people_old_reversed people_new_reversed (Col "id") =
  diff_pd people_old people_new (Col "id").
Proof.
  apply (row_order_irrelevant people_old people_old_reversed
           people_new people_new_reversed (Col "id")).
  - valid_key_by_computation.
  - by_computation.
  - reflexivity.
  - apply perm_swap.
  - reflexivity.
  - apply perm_swap.
Defined.

(** ** [compare_excel] *)

(** Whatever the inputs, an entry of the result of [diff_pd] is named
    "removed", "added" or "changed" and holds a frame that is not
    [empty]. *)
Lemma diff_pd_entries old new i out name df :
  diff_pd old new i = Ok out → out !! name = Some df →
  (name = "removed" ∨ name = "added" ∨ name = "changed") ∧ empty df = false.
Proof.
  unfold diff_pd. intros Hout.
  repeat match type of Hout with
         | context [bind ?m _] =>
             destruct m eqn:?; cbn [bind] in Hout; [|discriminate]
         end.
  injection Hout as <-.
  repeat match goal with
         | |- context [negb (empty ?d)] => destruct (empty d) eqn:?
         end; cbn [negb];
    rewrite ?lookup_insert, ?lookup_empty;
    repeat case_decide; intros; simplify_eq; auto.
Qed.

Lemma diff_of_unchanged names o n :
  keyed_pair names o n →
  (∀ k, k ∈ index o ↔ k ∈ index n) →
  (∀ k, k ∈ index o → identical_on_shared o n k) →
  diff_of o n = ∅.
Proof.
  intros Hp Hkeys Hrows.
  assert (removed_keys o n = []) as Hr.
  { apply list_nil_no_elem. intros k [Ho Hn]%elem_of_removed_keys.
    by apply Hn, Hkeys. }
  assert (removed_keys n o = []) as Ha.
  { apply list_nil_no_elem. intros k [Hn Ho]%elem_of_removed_keys.
    by apply Ho, Hkeys. }
  assert (changed_keys o n = []) as Hc.
  { apply list_nil_no_elem. intros k Hk.
    apply (elem_of_changed_keys _ _ _ Hp) in Hk as (Ho & _ & Hch).
    revert Hch. apply (not_row_changed_identical _ _ _ _ Hp). by apply Hrows. }
  unfold diff_of, removed_frame, changed_frame. rewrite Hr, Ha, Hc.
  by rewrite !put_empty.
Qed.

(** X10. When the two sheets hold the same keys and every row is
    identical on the shared columns after normalization (in particular
    when they hold the same table, or differ in surrounding whitespace
    only), [compare_excel] writes no workbook and prints
    "No differences spotted". *)
Theorem compare_excel_no_differences {K E : Type}
    (read_excel : string → string → K → E + DataFrame)
    (path1 path2 out_path sheet_name : string) (i : idx_col) (kwargs : K)
    (old new : DataFrame) :
  read_excel path1 sheet_name kwargs = inr old →
  read_excel path2 sheet_name kwargs = inr new →
  valid_key old new i →
  (∀ k, k ∈ key_values old i ↔ k ∈ key_values new i) →
  (∀ k, k ∈ key_values old i →
        identical_on_shared (indexed old i) (indexed new i) k) →
  compare_excel read_excel path1 path2 out_path sheet_name i kwargs =
  inr {| written := None; printed := ["No differences spotted"] |}.
Proof.
  intros H1 H2 Hv Hkeys Hrows. unfold compare_excel.
  rewrite H1, H2, diff_pd_eq by done.
  rewrite (diff_of_unchanged _ _ _ (valid_key_keyed_pair _ _ _ Hv)).
  - by rewrite decide_False by (by intros []).
  - intros k. by rewrite !index_indexed.
  - intros k. rewrite index_indexed. apply Hrows.
Qed.

Lemma compare_excel_no_differences_witness :
  compare_excel staff_books "old.xlsx" "new.xlsx" "compared.xlsx" "Sheet1"
    (Col "id") () =
  inr {| written := None; printed := ["No differences spotted"] |}.
Proof.
  apply (compare_excel_no_differences staff_books "old.xlsx" "new.xlsx"
           "compared.xlsx" "Sheet1" (Col "id") () staff_old staff_new).
  - vm_compute. reflexivity.
  - vm_compute. reflexivity.
  - valid_key_by_computation.
  - intros k.
    assert (key_values staff_old (Col "id") = key_values staff_new (Col "id"))
      as -> by (vm_compute; reflexivity).
    done.
  - intros k.
    assert (key_values staff_old (Col "id") = [[VInt 5]; [VInt 6]]) as ->
      by (vm_compute; reflexivity).
    assert (columns (indexed staff_old (Col "id")) = ["name"; "note"]) as Hcols
      by (vm_compute; reflexivity).
    intros Hk c Hc _. rewrite Hcols in Hc.
    apply elem_of_cons in Hk as [->|Hk];
      [|apply list_elem_of_singleton in Hk as ->];
      (apply elem_of_cons in Hc as [->|Hc];
       [|apply list_elem_of_singleton in Hc as ->]);
      by_computation.
Defined.

(** X11. When [compare_excel] completes, it has either written one
    workbook and printed "Differences saved in {out_path}", or written
    nothing and printed "No differences spotted".  The workbook is at
    [out_path], has at least one sheet, its sheets are named "removed",
    "added" or "changed", and every sheet holds a table with at least
    one row and one column. *)
Theorem compare_excel_effects {K E : Type}
    (read_excel : string → string → K → E + DataFrame)
    (path1 path2 out_path sheet_name : string) (i : idx_col) (kwargs : K)
    (eff : effects) :
  compare_excel read_excel path1 path2 out_path sheet_name i kwargs = inr eff →
  (written eff = None ∧ printed eff = ["No differences spotted"]) ∨
  (∃ sheets,
     written eff = Some (out_path, sheets) ∧
     printed eff = ["Differences saved in " +:+ out_path] ∧
     sheets ≠ ∅ ∧
     ∀ name df, sheets !! name = Some df →
       (name = "removed" ∨ name = "added" ∨ name = "changed") ∧
       rows df ≠ [] ∧ columns df ≠ []).
Proof.
  unfold compare_excel.
  destruct (read_excel path1 sheet_name kwargs) as [|old]; [done|].
  destruct (read_excel path2 sheet_name kwargs) as [|new]; [done|].
  destruct (diff_pd old new i) as [diff|] eqn:Hdiff; [|done].
  case_decide as Hne; intros [= <-]; simpl.
  - right. exists diff. split; [done|]. split; [done|]. split; [done|].
    intros name df Hdf.
    destruct (diff_pd_entries old new i diff name df Hdiff Hdf) as [Hname He].
    split; [done|]. by apply empty_false.
  - by left.
Qed.

Lemma compare_excel_effects_witness :
  let eff :=
    {| written := Some ("compared.xlsx",
                        diff_of (indexed people_old (Col "id"))
                                (indexed people_new (Col "id")));
       printed := ["Differences saved in compared.xlsx"] |} in
  (written eff = None ∧ printed eff = ["No differences spotted"]) ∨
  (∃ sheets,
     written eff = Some ("compared.xlsx", sheets) ∧
     printed eff = ["Differences saved in " +:+ "compared.xlsx"] ∧
     sheets ≠ ∅ ∧
     ∀ name df, sheets !! name = Some df →
       (name = "removed" ∨ name = "added" ∨ name = "changed") ∧
       rows df ≠ [] ∧ columns df ≠ []).
Proof.
  intros eff.
  apply (compare_excel_effects people_books "old.xlsx" "new.xlsx"
           "compared.xlsx" "Sheet1" (Col "id") () eff).
  vm_compute. reflexivity.
Defined.

(** X12. When both sheets are read and a key column is missing from one
    of them, [compare_excel] fails with [KeyError]: no workbook is
    written and nothing is printed. *)
Theorem compare_excel_missing_key {K E : Type}
    (read_excel : string → string → K → E + DataFrame)
    (path1 path2 out_path sheet_name : string) (i : idx_col) (kwargs : K)
    (old new : DataFrame) (c : string) :
  read_excel path1 sheet_name kwargs = inr old →
  read_excel path2 sheet_name kwargs = inr new →
  c ∈ labels i → c ∉ columns old ∨ c ∉ columns new →
  compare_excel read_excel path1 path2 out_path sheet_name i kwargs =
  inl (DiffFailed KeyError).
Proof.
  intros H1 H2 Hc Hmiss. unfold compare_excel. rewrite H1, H2.
  assert (diff_pd old new i = Raise KeyError) as ->; [|done].
  unfold diff_pd. destruct Hmiss as [Hmiss|Hmiss].
  - by rewrite (set_index_KeyError old i c).
  - rewrite (set_index_KeyError new i c) by done.
    unfold set_index at 1. by case_decide.
Qed.

Lemma compare_excel_missing_key_witness :
  compare_excel people_books "old.xlsx" "new.xlsx" "compared.xlsx" "Sheet1"
    (Col "sku") () = inl (DiffFailed KeyError).
Proof.
  apply (compare_excel_missing_key people_books "old.xlsx" "new.xlsx"
           "compared.xlsx" "Sheet1" (Col "sku") () people_old people_new "sku").
  - vm_compute. reflexivity.
  - vm_compute. reflexivity.
  - by_computation.
  - left. by_computation.
Defined.

(** ** Normalizing the tables beforehand *)

Lemma strip_strip_cells (cs : list value) :
  strip <$> (strip <$> cs) = strip <$> cs.
Proof.
  rewrite <-list_fmap_compose. apply list_fmap_ext. intros _ v _. simpl.
  destruct v as [s| | |]; try done. simpl. f_equal. apply str_strip_str_strip.
Qed.

Lemma get_strip c cols cs : get c cols (strip <$> cs) = strip (get c cols cs).
Proof.
  revert cs. induction cols as [|c' cols IH]; intros [|v cs]; try done.
  rewrite fmap_cons. cbn [get]. by case_decide.
Qed.

Lemma take_strip sel cols cs :
  take sel cols (strip <$> cs) = strip <$> take sel cols cs.
Proof.
  unfold take. rewrite <-list_fmap_compose. apply list_fmap_ext.
  intros _ c _. apply get_strip.
Qed.

Lemma key_values_applymap_strip df i :
  Forall (λ k, Forall (λ v, strip v = v) k) (key_values df i) →
  key_values (applymap strip df) i = key_values df i.
Proof.
  unfold key_values, applymap. simpl. rewrite Forall_fmap, Forall_forall.
  intros Hkeys. rewrite <-list_fmap_compose. apply list_fmap_ext.
  intros _ r Hr%list_elem_of_lookup_2. simpl. rewrite take_strip.
  etrans; [|apply list_fmap_id]. apply Forall_fmap_ext_1.
  by apply (Hkeys r).
Qed.

Lemma indexed_applymap_strip df i :
  Forall (λ k, Forall (λ v, strip v = v) k) (key_values df i) →
  indexed (applymap strip df) i = applymap strip (indexed df i).
Proof.
  unfold key_values. rewrite Forall_fmap, Forall_forall. intros Hkeys.
  unfold indexed, applymap. simpl. f_equal.
  rewrite <-!list_fmap_compose. apply list_fmap_ext.
  intros _ r Hr%list_elem_of_lookup_2. simpl. rewrite !take_strip. f_equal.
  etrans; [|apply list_fmap_id]. apply Forall_fmap_ext_1.
  by apply (Hkeys r).
Qed.

Lemma index_applymap f df : index (applymap f df) = index df.
Proof.
  unfold index, applymap. simpl. rewrite <-list_fmap_compose.
  by apply list_fmap_ext.
Qed.

Lemma cells_applymap f df k : cells (applymap f df) k = f <$> cells df k.
Proof.
  unfold cells, applymap. simpl. rewrite filter_fmap. simpl.
  by destruct (filter _ (rows df)).
Qed.

Lemma normalized_applymap_strip df cols k :
  normalized (applymap strip df) cols k = normalized df cols k.
Proof.
  unfold normalized. rewrite cells_applymap. simpl.
  by rewrite take_strip, strip_strip_cells.
Qed.

Lemma changed_keys_applymap_strip o n :
  changed_keys (applymap strip o) (applymap strip n) = changed_keys o n.
Proof.
  assert (common_columns (applymap strip o) (applymap strip n) =
          common_columns o n) as Hcc by done.
  unfold changed_keys, common_keys. rewrite !index_applymap.
  apply list_filter_iff. intros k. unfold row_changed.
  by rewrite Hcc, !normalized_applymap_strip.
Qed.

(** X14. Normalizing every cell of both tables before the call does not
    alter which rows are reported as changed, provided the key cells
    carry no surrounding whitespace (so that the keys stay as they
    are).  Stated for tables of integers within [exact_ints]. *)
Theorem prenormalized_tables_same_changed (old new : DataFrame) (i : idx_col)
    (out out' : gmap string DataFrame) :
  valid_key old new i → exact_ints old → exact_ints new →
  Forall (λ k, Forall (λ v, strip v = v) k)
         (key_values old i ++ key_values new i) →
  diff_pd old new i = Ok out →
  diff_pd (applymap strip old) (applymap strip new) i = Ok out' →
  result_keys out' "changed" = result_keys out "changed".
Proof.
  intros Hv _ _ [Hko Hkn]%Forall_app Hout Hout'.
  assert (valid_key (applymap strip old) (applymap strip new) i) as Hv'.
  { destruct Hv. split; rewrite ?key_values_applymap_strip by done; done. }
  rewrite diff_pd_eq in Hout, Hout' by done.
  injection Hout as <-. injection Hout' as <-.
  rewrite !result_keys_changed, !indexed_applymap_strip by done.
  apply changed_keys_applymap_strip.
Qed.

Lemma prenormalized_tables_same_changed_witness :
  result_keys (diff_of (indexed (applymap strip spaced_old) (Col "id"))
                       (indexed (applymap strip spaced_new) (Col "id")))
              "changed" =
  result_keys (diff_of (indexed spaced_old (Col "id"))
                       (indexed spaced_new (Col "id"))) "changed".
Proof.
  apply (prenormalized_tables_same_changed spaced_old spaced_new (Col "id")).
  - valid_key_by_computation.
  - by_computation.
  - by_computation.
  - by_computation.
  - vm_compute. reflexivity.
  - vm_compute. reflexivity.
Defined.

(** ** The three key sets *)

Lemma diff_result_keys old new i out :
  valid_key old new i → diff_pd old new i = Ok out →
  (∀ k, k ∈ result_keys out "removed" →
        k ∈ key_values old i ∧ k ∉ key_values new i) ∧
  (∀ k, k ∈ result_keys out "added" →
        k ∈ key_values new i ∧ k ∉ key_values old i) ∧
  (columns (indexed old i) ≠ [] →
   ∀ k, k ∈ key_values old i → k ∉ key_values new i →
        k ∈ result_keys out "removed") ∧
  (columns (indexed new i) ≠ [] →
   ∀ k, k ∈ key_values new i → k ∉ key_values old i →
        k ∈ result_keys out "added").
Proof.
  intros Hv Hout. rewrite diff_pd_eq in Hout by done. injection Hout as <-.
  rewrite <-!index_indexed. split; [|split; [|split]].
  - intros k Hk.
    by apply result_keys_removed_sub, elem_of_removed_keys in Hk.
  - intros k Hk.
    by apply result_keys_added_sub, elem_of_removed_keys in Hk.
  - intros Hc k Ho Hn. rewrite result_keys_removed by done.
    by apply elem_of_removed_keys.
  - intros Hc k Hn Ho. rewrite result_keys_added by done.
    by apply elem_of_removed_keys.
Qed.

(** X15. The key sets of "removed", "added" and "changed" are pairwise
    disjoint; and when each input table has at least one column besides
    the key, their union is the union of the old and the new keys minus
    the common keys whose rows are identical on the shared columns after
    normalization.  Stated for tables of integers within
    [exact_ints]. *)
Theorem result_keys_partition (old new : DataFrame) (i : idx_col)
    (out : gmap string DataFrame) :
  valid_key old new i → exact_ints old → exact_ints new →
  diff_pd old new i = Ok out →
  (∀ k, ¬ (k ∈ result_keys out "removed" ∧ k ∈ result_keys out "added")) ∧
  (∀ k, ¬ (k ∈ result_keys out "removed" ∧ k ∈ result_keys out "changed")) ∧
  (∀ k, ¬ (k ∈ result_keys out "added" ∧ k ∈ result_keys out "changed")) ∧
  (columns (indexed old i) ≠ [] → columns (indexed new i) ≠ [] →
   ∀ k,
     k ∈ result_keys out "removed" ∨ k ∈ result_keys out "added" ∨
     k ∈ result_keys out "changed" ↔
     (k ∈ key_values old i ∨ k ∈ key_values new i) ∧
     ¬ (k ∈ key_values old i ∧ k ∈ key_values new i ∧
        identical_on_shared (indexed old i) (indexed new i) k)).
Proof.
  intros Hv _ _ Hout.
  pose proof (valid_key_keyed_pair _ _ _ Hv) as Hp.
  destruct (diff_result_keys old new i out Hv Hout) as (Hr & Ha & Hr' & Ha').
  pose proof (changed_result_keys old new i out) as Hc.
  split; [|split; [|split]].
  - intros k [?%Hr ?%Ha]. tauto.
  - intros k [?%Hr ?%Hc]; [tauto|done..].
  - intros k [?%Ha ?%Hc]; [tauto|done..].
  - intros Hco Hcn k. rewrite Hc by done.
    rewrite <-(not_row_changed_identical _ _ _ k Hp).
    specialize (Hr k). specialize (Ha k).
    specialize (Hr' Hco k). specialize (Ha' Hcn k).
    destruct (decide (k ∈ key_values old i));
      destruct (decide (k ∈ key_values new i));
      destruct (decide (row_changed (indexed old i) (indexed new i) k)); tauto.
Qed.

Lemma result_keys_partition_witness :
  (∀ k, ¬ (k ∈ [[VInt 2]] ∧ k ∈ [[VInt 3]])) ∧
  (∀ k, ¬ (k ∈ [[VInt 2]] ∧ k ∈ [[VInt 1]])) ∧
  (∀ k, ¬ (k ∈ [[VInt 3]] ∧ k ∈ [[VInt 1]])) ∧
  (columns (indexed people_old (Col "id")) ≠ [] →
   columns (indexed people_new (Col "id")) ≠ [] →
   ∀ k,
     k ∈ [[VInt 2]] ∨ k ∈ [[VInt 3]] ∨ k ∈ [[VInt 1]] ↔
     (k ∈ key_values people_old (Col "id") ∨
      k ∈ key_values people_new (Col "id")) ∧
     ¬ (k ∈ key_values people_old (Col "id") ∧
        k ∈ key_values people_new (Col "id") ∧
        identical_on_shared (indexed people_old (Col "id"))
                            (indexed people_new (Col "id")) k)).
Proof.
  apply (result_keys_partition people_old people_new (Col "id")
           (diff_of (indexed people_old (Col "id")) (indexed people_new (Col "id")))).
  - valid_key_by_computation.
  - by_computation.
  - by_computation.
  - vm_compute. reflexivity.
Defined.

(** ** Which entries are present *)

Lemma exists_removed_key names o n :
  keyed_pair names o n →
  removed_keys o n ≠ [] ↔ ∃ k, k ∈ index o ∧ k ∉ index n.
Proof.
  intros Hp. split.
  - destruct (removed_keys o n) as [|k ks] eqn:Hks; [done|]. intros _.
    exists k. apply (elem_of_removed_keys o n). rewrite Hks. by left.
  - intros (k & Hk) Hnil. apply (elem_of_removed_keys o n) in Hk.
    rewrite Hnil in Hk. by apply elem_of_nil in Hk.
Qed.

(** X16. The entries of the result are among "removed", "added" and
    "changed".  "removed" is present exactly when some key of the old
    table is not in the new one and the old table has a column besides
    the key; "added" likewise for the new table; "changed" exactly when
    some common key has a row that is not identical on the shared
    columns after normalization.  Stated for tables of integers within
    [exact_ints]. *)
Theorem entries_present (old new : DataFrame) (i : idx_col)
    (out : gmap string DataFrame) :
  valid_key old new i → exact_ints old → exact_ints new →
  diff_pd old new i = Ok out →
  dom out ⊆ ({["removed"; "added"; "changed"]} : gset string) ∧
  (is_Some (out !! "removed") ↔
     (∃ k, k ∈ key_values old i ∧ k ∉ key_values new i) ∧
     columns (indexed old i) ≠ []) ∧
  (is_Some (out !! "added") ↔
     (∃ k, k ∈ key_values new i ∧ k ∉ key_values old i) ∧
     columns (indexed new i) ≠ []) ∧
  (is_Some (out !! "changed") ↔
     ∃ k, k ∈ key_values old i ∧ k ∈ key_values new i ∧
          ¬ identical_on_shared (indexed old i) (indexed new i) k).
Proof.
  intros Hv _ _ Hout.
  pose proof (valid_key_sym _ _ _ Hv) as Hv'.
  pose proof (valid_key_keyed_pair _ _ _ Hv) as Hp.
  pose proof (valid_key_keyed_pair _ _ _ Hv') as Hp'.
  rewrite diff_pd_eq in Hout by done. injection Hout as <-.
  set (o := indexed old i) in *. set (n := indexed new i) in *.
  split.
  { intros name [df Hdf]%elem_of_dom.
    destruct (decide (name = "removed")) as [->|H1]; [set_solver|].
    destruct (decide (name = "added")) as [->|H2]; [set_solver|].
    destruct (decide (name = "changed")) as [->|H3]; [set_solver|].
    by rewrite lookup_diff_of_other in Hdf. }
  assert (∀ df : DataFrame,
            is_Some (if empty df then None else Some df) ↔ empty df = false)
    as Hsome.
  { intros df. destruct (empty df); split;
      first [by intros []%is_Some_None|done|by eexists]. }
  rewrite lookup_diff_of_removed, lookup_diff_of_added, lookup_diff_of_changed.
  rewrite !Hsome. unfold removed_frame. rewrite !empty_keyed, empty_changed_frame.
  rewrite !orb_false_iff, !bool_decide_eq_false.
  rewrite (exists_removed_key _ o n Hp), (exists_removed_key _ n o Hp').
  unfold o, n. rewrite !index_indexed. fold o n.
  split; [done|]. split; [done|]. split.
  - destruct (changed_keys o n) as [|k ks] eqn:Hks; [done|]. intros _.
    exists k.
    assert (k ∈ changed_keys o n) as Hk by (rewrite Hks; by left).
    apply (elem_of_changed_keys _ _ _ Hp) in Hk as (Ho & Hn & Hch).
    unfold o, n in Ho, Hn. rewrite index_indexed in Ho, Hn.
    split; [done|]. split; [done|].
    intros Hid. by apply (not_row_changed_identical _ _ _ k Hp) in Hid.
  - intros (k & Ho & Hn & Hch) Hnil.
    assert (k ∈ changed_keys o n) as Hk.
    { apply (elem_of_changed_keys _ _ _ Hp). unfold o, n.
      rewrite !index_indexed. split; [done|]. split; [done|].
      destruct (decide (row_changed (indexed old i) (indexed new i) k))
        as [?|Hnot]; [done|].
      destruct Hch. by apply (not_row_changed_identical _ _ _ k Hp). }
    rewrite Hnil in Hk. by apply elem_of_nil in Hk.
Qed.

Lemma entries_present_witness :
  dom (diff_of (indexed people_old (Col "id")) (indexed people_new (Col "id")))
    ⊆ ({["removed"; "added"; "changed"]} : gset string) ∧
  (is_Some (diff_of (indexed people_old (Col "id"))
                    (indexed people_new (Col "id")) !! "removed") ↔
     (∃ k, k ∈ key_values people_old (Col "id") ∧
           k ∉ key_values people_new (Col "id")) ∧
     columns (indexed people_old (Col "id")) ≠ []) ∧
  (is_Some (diff_of (indexed people_old (Col "id"))
                    (indexed people_new (Col "id")) !! "added") ↔
     (∃ k, k ∈ key_values people_new (Col "id") ∧
           k ∉ key_values people_old (Col "id")) ∧
     columns (indexed people_new (Col "id")) ≠ []) ∧
  (is_Some (diff_of (indexed people_old (Col "id"))
                    (indexed people_new (Col "id")) !! "changed") ↔
     ∃ k, k ∈ key_values people_old (Col "id") ∧
          k ∈ key_values people_new (Col "id") ∧
          ¬ identical_on_shared (indexed people_old (Col "id"))
                                (indexed people_new (Col "id")) k).
Proof.
  apply (entries_present people_old people_new (Col "id")).
  - valid_key_by_computation.
  - by_computation.
  - by_computation.
  - vm_compute. reflexivity.
Defined.
